(** * Security Toolkit 2.0: the password generator core of [www/app.js]

    A shallow embedding of the business logic of [www/app.js]
    ([secureRandom], [calculateStrength], [generatePassword],
    [generatePassphrase], [getStrengthDescription], [calculateEntropy])
    and the properties its specification states about it.

    Conventions of the embedding:
    - an integer-valued JavaScript Number is a [Z];
    - a JavaScript string is the list of its UTF-16 code units;
    - [crypto.getRandomValues] reads an infinite stream of draws
      ([nat -> Z]) at a cursor; storing a draw in the [Uint32Array]
      reduces it modulo 2^32;
    - [throw new Error(msg)] is the outcome [Thrown (Error msg)];
    - the [do ... while] loop of [secureRandom] is bounded by a fuel
      argument, and running out of it is the outcome [OutOfFuel]. *)

From Stdlib Require Import String Ascii ZArith List Lia Reals Lra.
From stdpp Require Import base list strings gmap.

Open Scope Z_scope.

(** ** JavaScript values and built-ins used by the core *)

Module JS.

(** A string is its sequence of UTF-16 code units. *)
Abbreviation jsstring := (list Z).

(** An ASCII literal of the source as a JavaScript string. *)
Definition lit (s : string) : jsstring :=
  map (fun a : ascii => Z.of_N (N_of_ascii a)) (list_ascii_of_string s).

(** The arguments the presentation layer may pass where the core expects
    a number: nothing, an integer-valued Number, or a string. A Number
    stands for itself below 2^53 in absolute value, where every integer is
    a double and its [ToString] is its decimal numeral; the statements that
    depend on the value read carry that bound ([reads_back] below). *)
Inductive jsval : Type :=
| JSundefined
| JSnumber (n : Z)
| JSstring (s : jsstring).

(** The result of [parseInt]: [NaN] or an integer. *)
Inductive jsint : Type :=
| NaN
| Int (n : Z).

(** [StrWhiteSpaceChar]: WhiteSpace and LineTerminator code units. *)
Definition is_white (c : Z) : bool :=
  existsb (Z.eqb c)
    [9; 10; 11; 12; 13; 32; 160; 5760; 8232; 8233; 8239; 8287; 12288; 65279]
  || ((8192 <=? c) && (c <=? 8202)).

Definition is_digit (c : Z) : bool := (48 <=? c) && (c <=? 57).

Fixpoint trim_start (s : jsstring) : jsstring :=
  match s with
  | c :: s' => if is_white c then trim_start s' else s
  | [] => []
  end.

(** Value of the longest prefix of decimal digits. *)
Fixpoint digits_value (acc : Z) (s : jsstring) : Z :=
  match s with
  | c :: s' => if is_digit c then digits_value (acc * 10 + (c - 48)) s' else acc
  | [] => acc
  end.

Definition parse_digits (s : jsstring) : jsint :=
  match s with
  | c :: _ => if is_digit c then Int (digits_value 0 s) else NaN
  | [] => NaN
  end.

Definition negate (p : jsint) : jsint :=
  match p with
  | NaN => NaN
  | Int n => Int (- n)
  end.

(** [parseInt(string, 10)]: skip white space, read an optional sign, then
    the longest prefix of decimal digits; [NaN] when there is none. *)
Definition parseInt_string (s : jsstring) : jsint :=
  match trim_start s with
  | c :: r =>
      if c =? 45 then negate (parse_digits r)
      else if c =? 43 then parse_digits r
      else parse_digits (c :: r)
  | [] => NaN
  end.

(** [parseInt(v, 10)]. [undefined] reads as the string "undefined", which
    has no digit; an integer Number reads back as itself. *)
Definition parseInt (v : jsval) : jsint :=
  match v with
  | JSundefined => NaN
  | JSnumber n => Int n
  | JSstring s => parseInt_string s
  end.

(** [p || d] on a parsed number: [NaN] and [0] are falsy. *)
Definition or_default (p : jsint) (d : Z) : Z :=
  match p with
  | NaN => d
  | Int n => if n =? 0 then d else n
  end.

(** [s[i]] on a string: the one-unit string at index [i], or [undefined]. *)
Definition index (s : jsstring) (i : Z) : option jsstring :=
  if i <? 0 then None
  else match s !! Z.to_nat i with
       | Some c => Some [c]
       | None => None
       end.

(** [acc += x] where [x] came from an index access: [undefined] is
    appended as the text "undefined". *)
Definition append (acc : jsstring) (x : option jsstring) : jsstring :=
  match x with
  | Some s => acc ++ s
  | None => acc ++ lit "undefined"
  end.

(** [a[i]] on an array: the element, or [undefined] ([None]). *)
Definition element {A : Type} (a : list A) (i : Z) : option A :=
  if i <? 0 then None else a !! Z.to_nat i.

(** [String.prototype.slice(0, n)]. *)
Definition slice0 (n : nat) (s : jsstring) : jsstring := take n s.

(** [Array.prototype.join(sep)]; an [undefined] element prints as the
    empty string. *)
Definition item (w : option jsstring) : jsstring :=
  match w with
  | Some s => s
  | None => []
  end.

Fixpoint join (sep : jsstring) (ws : list (option jsstring)) : jsstring :=
  match ws with
  | [] => []
  | [w] => item w
  | w :: ws' => item w ++ sep ++ join sep ws'
  end.

(** The string iterator used by [new Set(string)]: it yields code points,
    so a high surrogate followed by a low surrogate is one element. *)
Definition is_high_surrogate (c : Z) : bool := (55296 <=? c) && (c <=? 56319).
Definition is_low_surrogate (c : Z) : bool := (56320 <=? c) && (c <=? 57343).

Fixpoint iterate (s : jsstring) : list jsstring :=
  match s with
  | [] => []
  | c :: s' =>
      match s' with
      | d :: s'' =>
          if is_high_surrogate c && is_low_surrogate d
          then [c; d] :: iterate s''
          else [c] :: iterate s'
      | [] => [[c]]
      end
  end.

(** The classes of the regular expressions [/[a-z]/], [/[A-Z]/],
    [/[0-9]/] and [/[^a-zA-Z0-9]/] (no flags: they test code units). *)
Definition in_a_z (c : Z) : bool := (97 <=? c) && (c <=? 122).
Definition in_A_Z (c : Z) : bool := (65 <=? c) && (c <=? 90).
Definition in_0_9 (c : Z) : bool := (48 <=? c) && (c <=? 57).
Definition not_alnum (c : Z) : bool := negb (in_a_z c || in_A_Z c || in_0_9 c).

(** [Boolean], as the predicate of [filter(Boolean)] on booleans. *)
Definition Boolean (b : bool) : bool := b.

(** [regex.test(s)] for a one-class regular expression. *)
Definition test (class : Z -> bool) (s : jsstring) : bool := existsb class s.

End JS.

Import JS.

(** ** Outcomes and the entropy source *)

Inductive exn : Type :=
| Error (msg : string).

Inductive outcome (A : Type) : Type :=
| Returned (a : A)
| Thrown (e : exn)
| OutOfFuel.

Arguments Returned {A} a.
Arguments Thrown {A} e.
Arguments OutOfFuel {A}.

(** A computation reads the stream of draws [src] from a cursor and
    returns its result with the new cursor. *)
Definition M (A : Type) : Type := (nat -> Z) -> nat -> outcome (A * nat).

Definition ret {A : Type} (a : A) : M A :=
  fun _ pos => Returned (a, pos).

Definition throw {A : Type} (e : exn) : M A :=
  fun _ _ => Thrown e.

Definition out_of_fuel {A : Type} : M A :=
  fun _ _ => OutOfFuel.

Definition bind {A B : Type} (m : M A) (k : A -> M B) : M B :=
  fun src pos =>
    match m src pos with
    | Returned (a, pos') => k a src pos'
    | Thrown e => Thrown e
    | OutOfFuel => OutOfFuel
    end.

Notation "'let*' x ':=' m 'in' k" := (bind m (fun x => k))
  (at level 10, x name, m at level 100, k at level 200).

(** [for (let i = 0; i < n; i++) acc = body(acc)]. *)
Fixpoint for_loop {S : Type} (n : nat) (body : S -> M S) (acc : S) : M S :=
  match n with
  | O => ret acc
  | S n' => let* acc' := body acc in for_loop n' body acc'
  end.

(** [crypto.getRandomValues(arr); value = arr[0]] with [arr] a
    [Uint32Array(1)]: the next draw, as an unsigned 32-bit integer. *)
Definition getRandomValues : M Z :=
  fun src pos => Returned (src pos mod 2 ^ 32, S pos).

(** The error classes of the specification, by the message thrown. *)
Definition InvalidArgument (e : exn) : Prop :=
  e = Error "secureRandom: max must be positive" \/
  e = Error "At least one character set must be selected".

Definition UnavailableResource (e : exn) : Prop :=
  e = Error "BIP39 word list not loaded".

(** ** [secureRandom] *)

(** [Math.floor(2**32 / max) * max]. For an integer [max > 0] the double
    quotient has the same floor as the exact one, and the product is an
    integer of at most 2^32, so the integer computation is exact. *)
Definition maxValid (max : Z) : Z := 2 ^ 32 / max * max.

(** [do { value = draw } while (value >= maxValid)], at most [fuel] draws. *)
Fixpoint draw_loop (fuel : nat) (limit : Z) : M Z :=
  match fuel with
  | O => out_of_fuel
  | S fuel' =>
      let* value := getRandomValues in
      if value >=? limit then draw_loop fuel' limit else ret value
  end.

Definition secureRandom (fuel : nat) (max : Z) : M Z :=
  if max <=? 0 then throw (Error "secureRandom: max must be positive")
  else if max =? 1 then ret 0
  else
    let* value := draw_loop fuel (maxValid max) in
    ret (Z.rem value max).

(** What [secureRandom max] makes of the single draw [v]: the value it
    returns, or [None] when it rejects the draw and asks for another. *)
Definition output_of_draw (max v : Z) : option Z :=
  match secureRandom 1 max (fun _ => v) 0%nat with
  | Returned (y, _) => Some y
  | _ => None
  end.

(** The 32-bit draws from which [secureRandom max] returns [y]. *)
Definition preimages (max y : Z) : list Z :=
  filter (fun v => output_of_draw max v = Some y) (seqZ 0 (2 ^ 32)).

(** ** [calculateStrength] *)

Definition calculateStrength (password : jsstring) : Z :=
  if (length password =? 0)%nat then 0
  else
    let score := 0 in
    let score := score + Z.min (Z.of_nat (length password) * 4) 40 in
    let hasLower := test in_a_z password in
    let hasUpper := test in_A_Z password in
    let hasNumbers := test in_0_9 password in
    let hasSymbols := test not_alnum password in
    let varietyCount :=
      Z.of_nat (length (List.filter Boolean [hasLower; hasUpper; hasNumbers; hasSymbols])) in
    let score := score + varietyCount * 15 in
    let uniqueChars :=
      Z.of_nat (size (list_to_set (iterate password) : gset jsstring)) in
    let repetitionPenalty := (Z.of_nat (length password) - uniqueChars) * 2 in
    let score := Z.max 0 (score - repetitionPenalty) in
    Z.min score 100.

(** The number of distinct elements that [new Set(password)] holds. *)
Definition distinct_characters (p : jsstring) : Z :=
  Z.of_nat (length (remove_dups (iterate p))).

(** The scoring rule in the words of the specification, with one notion
    of character for the length and for the distinct characters: a
    character is an element of the string, a UTF-16 code unit. *)
Definition present (class : Z -> bool) (p : jsstring) : Z :=
  if decide (Exists (fun c => class c = true) p) then 1 else 0.

Definition distinct_units (p : jsstring) : Z :=
  Z.of_nat (length (remove_dups p)).

Definition strength_reference (p : jsstring) : Z :=
  match p with
  | [] => 0
  | _ =>
      let len := Z.of_nat (length p) in
      Z.min 100
        (Z.max 0
           (Z.min (len * 4) 40
            + 15 * (present in_a_z p + present in_A_Z p + present in_0_9 p
                    + present not_alnum p)
            - 2 * (len - distinct_units p)))
  end.

(** ** [generatePassword] *)

Record options : Type := {
  lower : bool;
  upper : bool;
  numbers : bool;
  symbols : bool
}.

Module SETS.
Definition lower : jsstring := lit "abcdefghijklmnopqrstuvwxyz".
Definition upper : jsstring := lit "ABCDEFGHIJKLMNOPQRSTUVWXYZ".
Definition numbers : jsstring := lit "0123456789".
Definition symbols : jsstring := lit "!@#$%^&*()_+-=[]{}|;:,.<>?".
End SETS.

Definition build_pool (o : options) : jsstring :=
  let pool := [] in
  let pool := if lower o then pool ++ SETS.lower else pool in
  let pool := if upper o then pool ++ SETS.upper else pool in
  let pool := if numbers o then pool ++ SETS.numbers else pool in
  let pool := if symbols o then pool ++ SETS.symbols else pool in
  pool.

(** [Math.max(6, Math.min(64, parseInt(length, 10) || 16))]. *)
Definition password_length (length : jsval) : Z :=
  Z.max 6 (Z.min 64 (or_default (parseInt length) 16)).

(** The body of the [for] loop of [generatePassword]:
    [password += pool[secureRandom(pool.length)]]. *)
Definition next_char (fuel : nat) (pool password : jsstring) : M jsstring :=
  let* i := secureRandom fuel (Z.of_nat (length pool)) in
  ret (append password (index pool i)).

Definition generatePassword (fuel : nat) (length : jsval) (o : options)
  : M jsstring :=
  let pool := build_pool o in
  match pool with
  | [] => throw (Error "At least one character set must be selected")
  | _ =>
      let len := password_length length in
      for_loop (Z.to_nat len) (next_char fuel pool) []
  end.

(** The union of the character sets that [o] enables. *)
Definition in_enabled_sets (o : options) (c : Z) : Prop :=
  (lower o = true /\ c ∈ SETS.lower) \/
  (upper o = true /\ c ∈ SETS.upper) \/
  (numbers o = true /\ c ∈ SETS.numbers) \/
  (symbols o = true /\ c ∈ SETS.symbols).

Definition no_set_selected (o : options) : Prop :=
  lower o = false /\ upper o = false /\ numbers o = false /\ symbols o = false.

(** Successive calls of [secureRandom fuel max] from cursor [pos] return
    the indices [idxs], in this order, and leave the cursor at [pos']. *)
Inductive draws (fuel : nat) (max : Z) (src : nat -> Z)
  : nat -> list Z -> nat -> Prop :=
| draws_nil pos : draws fuel max src pos [] pos
| draws_cons pos i pos1 idxs pos' :
    secureRandom fuel max src pos = Returned (i, pos1) ->
    draws fuel max src pos1 idxs pos' ->
    draws fuel max src pos (i :: idxs) pos'.

(** ** [generatePassphrase] and [calculateEntropy]

    [BIP39_WORDS] is a global defined by another script; [None] stands for
    an undefined (or null) global, [Some ws] for the array [ws]. *)

Definition word_count (wordCount : jsval) : Z :=
  Z.max 3 (Z.min 12 (or_default (parseInt wordCount) 6)).

(** [(separator || '-').slice(0, 10)]; the empty string is falsy. *)
Definition separator_of (separator : jsstring) : jsstring :=
  slice0 10 (match separator with [] => lit "-" | _ => separator end).

(** The body of the [for] loop of [generatePassphrase]:
    [words.push(BIP39_WORDS[secureRandom(BIP39_WORDS.length)])]. *)
Definition next_word (fuel : nat) (BIP39_WORDS : list jsstring)
  (words : list (option jsstring)) : M (list (option jsstring)) :=
  let* i := secureRandom fuel (Z.of_nat (length BIP39_WORDS)) in
  ret (words ++ [element BIP39_WORDS i]).

Definition generatePassphrase (fuel : nat) (BIP39_WORDS : option (list jsstring))
  (wordCount : jsval) (separator : jsstring) : M jsstring :=
  match BIP39_WORDS with
  | None | Some [] => throw (Error "BIP39 word list not loaded")
  | Some ws =>
      let count := word_count wordCount in
      let sep := separator_of separator in
      let* words := for_loop (Z.to_nat count) (next_word fuel ws) [] in
      ret (join sep words)
  end.

(** ** [getStrengthDescription] *)

Module Label.
(** The four labels, as the page prints them. *)
Definition weak : string := "Слабый пароль".
Definition medium : string := "Средний пароль".
Definition strong : string := "Надёжный пароль".
Definition very_strong : string := "Очень надёжный пароль".
End Label.

Definition getStrengthDescription (score : Z) : string :=
  if score <? 40 then Label.weak
  else if score <? 70 then Label.medium
  else if score <? 90 then Label.strong
  else Label.very_strong.

(** ** [calculateEntropy]

    The Numbers [calculateEntropy] can return. A finite Number is taken as
    the real it stands for, and the infinities and NaN of
    [Math.log2(0) * wordCount] are kept apart. The rounding of doubles is
    not modelled: [Finite r] is the Number of the code where nothing is
    rounded, that is for a list of [2^k] words (the logarithm is [k]) and
    a count whose product with [k] stays below 2^53; the statements about
    finite values carry these bounds. *)

Inductive number : Type :=
| Finite (r : R)
| NegInfinity
| PosInfinity
| NotANumber.

Definition log2 (x : R) : R := (ln x / ln 2)%R.

(** [Math.log2(n)] for an array length [n]. *)
Definition Math_log2 (n : nat) : number :=
  match n with
  | O => NegInfinity
  | _ => Finite (log2 (INR n))
  end.

(** [x * k] for an integer [k]. *)
Definition times (x : number) (k : Z) : number :=
  match x with
  | Finite r => Finite (r * IZR k)
  | NegInfinity =>
      if k =? 0 then NotANumber else if k <? 0 then PosInfinity else NegInfinity
  | PosInfinity =>
      if k =? 0 then NotANumber else if k <? 0 then NegInfinity else PosInfinity
  | NotANumber => NotANumber
  end.

Definition calculateEntropy (BIP39_WORDS : option (list jsstring))
  (wordCount : Z) : number :=
  match BIP39_WORDS with
  | None => Finite 0
  | Some ws =>
      let wordListSize := length ws in
      times (Math_log2 wordListSize) wordCount
  end.

(** ** The page and its handlers

    The handlers read and write the elements collected in [elements].
    The page is modelled with all of them present. An [input] element is
    its [value] (a string) or its [checked] flag; an output element is its
    [textContent]; a strength bar is the percentage of its
    [style.width], [strength + '%']. *)

(** What the handlers store in a [textContent]. *)
Inductive text : Type :=
| Text (s : jsstring)
    (* a string computed by the script, by its code units *)
| Message (m : string)
    (* a string literal of the source *)
| EntropyHint (entropy : number).
    (* the template [`Энтропия: ~${entropy.toFixed(1)} бит`] *)

Record page : Type := {
  pwdLength : jsstring;
  pLower : bool;
  pUpper : bool;
  pNumbers : bool;
  pSymbols : bool;
  pwdResult : text;
  pwdStrength : Z;
  wordCount : jsstring;
  separator : jsstring;
  phraseResult : text;
  phraseHint : text;
  checkInput : jsstring;
  checkResult : text;
  checkStrength : Z
}.

(** [elements.pwdResult.textContent = t]. *)
Definition set_pwdResult (t : text) (d : page) : page :=
  {| pwdLength := pwdLength d; pLower := pLower d; pUpper := pUpper d;
     pNumbers := pNumbers d; pSymbols := pSymbols d;
     pwdResult := t; pwdStrength := pwdStrength d;
     wordCount := wordCount d; separator := separator d;
     phraseResult := phraseResult d; phraseHint := phraseHint d;
     checkInput := checkInput d; checkResult := checkResult d;
     checkStrength := checkStrength d |}.

(** [elements.pwdStrength.style.width = w + '%']. *)
Definition set_pwdStrength (w : Z) (d : page) : page :=
  {| pwdLength := pwdLength d; pLower := pLower d; pUpper := pUpper d;
     pNumbers := pNumbers d; pSymbols := pSymbols d;
     pwdResult := pwdResult d; pwdStrength := w;
     wordCount := wordCount d; separator := separator d;
     phraseResult := phraseResult d; phraseHint := phraseHint d;
     checkInput := checkInput d; checkResult := checkResult d;
     checkStrength := checkStrength d |}.

(** [elements.phraseResult.textContent = t]. *)
Definition set_phraseResult (t : text) (d : page) : page :=
  {| pwdLength := pwdLength d; pLower := pLower d; pUpper := pUpper d;
     pNumbers := pNumbers d; pSymbols := pSymbols d;
     pwdResult := pwdResult d; pwdStrength := pwdStrength d;
     wordCount := wordCount d; separator := separator d;
     phraseResult := t; phraseHint := phraseHint d;
     checkInput := checkInput d; checkResult := checkResult d;
     checkStrength := checkStrength d |}.

(** [elements.phraseHint.textContent = t]. *)
Definition set_phraseHint (t : text) (d : page) : page :=
  {| pwdLength := pwdLength d; pLower := pLower d; pUpper := pUpper d;
     pNumbers := pNumbers d; pSymbols := pSymbols d;
     pwdResult := pwdResult d; pwdStrength := pwdStrength d;
     wordCount := wordCount d; separator := separator d;
     phraseResult := phraseResult d; phraseHint := t;
     checkInput := checkInput d; checkResult := checkResult d;
     checkStrength := checkStrength d |}.

(** [elements.checkResult.textContent = t]. *)
Definition set_checkResult (t : text) (d : page) : page :=
  {| pwdLength := pwdLength d; pLower := pLower d; pUpper := pUpper d;
     pNumbers := pNumbers d; pSymbols := pSymbols d;
     pwdResult := pwdResult d; pwdStrength := pwdStrength d;
     wordCount := wordCount d; separator := separator d;
     phraseResult := phraseResult d; phraseHint := phraseHint d;
     checkInput := checkInput d; checkResult := t;
     checkStrength := checkStrength d |}.

(** [elements.checkStrength.style.width = w + '%']. *)
Definition set_checkStrength (w : Z) (d : page) : page :=
  {| pwdLength := pwdLength d; pLower := pLower d; pUpper := pUpper d;
     pNumbers := pNumbers d; pSymbols := pSymbols d;
     pwdResult := pwdResult d; pwdStrength := pwdStrength d;
     wordCount := wordCount d; separator := separator d;
     phraseResult := phraseResult d; phraseHint := phraseHint d;
     checkInput := checkInput d; checkResult := checkResult d;
     checkStrength := w |}.

(** [try { body } catch (error) { handler }]. The calls made in this file
    throw before they draw, so the handler resumes at the cursor of the
    [try]; [console.error] is not recorded. *)
Definition try_catch {A : Type} (body : M A) (handler : exn -> M A) : M A :=
  fun src pos =>
    match body src pos with
    | Thrown error => handler error src pos
    | r => r
    end.

Definition handleGeneratePassword (fuel : nat) (d : page) : M page :=
  try_catch
    (let options :=
       {| lower := pLower d; upper := pUpper d;
          numbers := pNumbers d; symbols := pSymbols d |} in
     if negb (lower options) && negb (upper options)
        && negb (numbers options) && negb (symbols options)
     then ret (set_pwdResult (Message "Выберите хотя бы один набор символов") d)
     else
       let length := or_default (parseInt (JSstring (pwdLength d))) 16 in
       let* password := generatePassword fuel (JSnumber length) options in
       let strength := calculateStrength password in
       ret (set_pwdStrength strength (set_pwdResult (Text password) d)))
    (fun error => ret (set_pwdResult (Message "Ошибка генерации пароля") d)).

(** [elements.separator.value || '-']. *)
Definition separator_or_default (value : jsstring) : jsstring :=
  match value with
  | [] => lit "-"
  | _ => value
  end.

Definition handleGeneratePassphrase (fuel : nat)
  (BIP39_WORDS : option (list jsstring)) (d : page) : M page :=
  try_catch
    (let wordCount := or_default (parseInt (JSstring (wordCount d))) 6 in
     let separator := separator_or_default (separator d) in
     let* passphrase :=
       generatePassphrase fuel BIP39_WORDS (JSnumber wordCount) separator in
     let entropy := calculateEntropy BIP39_WORDS wordCount in
     ret (set_phraseHint (EntropyHint entropy)
            (set_phraseResult (Text passphrase) d)))
    (fun error =>
       ret (set_phraseHint (Text [])
              (set_phraseResult (Message "Ошибка генерации passphrase") d))).

Definition handleCheckPassword (d : page) : M page :=
  try_catch
    (let password := checkInput d in
     match password with
     | [] => ret (set_checkStrength 0 (set_checkResult (Text []) d))
     | _ =>
         let strength := calculateStrength password in
         let description := getStrengthDescription strength in
         ret (set_checkStrength strength
                (set_checkResult (Message description) d))
     end)
    (fun error => ret (set_checkResult (Message "Ошибка проверки пароля") d)).

(** An argument that [parseInt] reads as NaN or as an integer below 2^53
    in absolute value: the range in which the digits of a string are read
    without rounding and a Number reads back as itself. *)
Definition reads_back (v : jsval) : Prop :=
  match parseInt v with
  | NaN => True
  | Int n => Z.abs n < 2 ^ 53
  end.

(** The number of character sets that [o] enables. *)
Definition enabled_sets (o : options) : Z :=
  Z.b2z (lower o) + Z.b2z (upper o) + Z.b2z (numbers o) + Z.b2z (symbols o).

(** The number of character classes that [calculateStrength] finds. *)
Definition classes (p : jsstring) : Z :=
  Z.b2z (test in_a_z p) + Z.b2z (test in_A_Z p)
  + Z.b2z (test in_0_9 p) + Z.b2z (test not_alnum p).

(** The draw at cursor [n], as [secureRandom] reads it. *)
Definition draw (src : nat -> Z) (n : nat) : Z := src n mod 2 ^ 32.

(** Pages used as examples: digits only with the length field "4"; the
    count field "100"; the check field "aB3!xyzw". *)
Definition example_password_page : page :=
  {| pwdLength := lit "4"; pLower := false; pUpper := false;
     pNumbers := true; pSymbols := false;
     pwdResult := Text []; pwdStrength := 0;
     wordCount := []; separator := [];
     phraseResult := Text []; phraseHint := Text [];
     checkInput := []; checkResult := Text []; checkStrength := 0 |}.

Definition example_passphrase_page : page :=
  {| pwdLength := []; pLower := false; pUpper := false;
     pNumbers := false; pSymbols := false;
     pwdResult := Text []; pwdStrength := 0;
     wordCount := lit "100"; separator := [];
     phraseResult := Text []; phraseHint := Text [];
     checkInput := []; checkResult := Text []; checkStrength := 0 |}.

Definition example_check_page : page :=
  {| pwdLength := []; pLower := false; pUpper := false;
     pNumbers := false; pSymbols := false;
     pwdResult := Text []; pwdStrength := 0;
     wordCount := []; separator := [];
     phraseResult := Text []; phraseHint := Text [];
     checkInput := lit "aB3!xyzw"; checkResult := Text [];
     checkStrength := 0 |}.

(** * Properties *)

(** ** The built-ins on small inputs *)

Example parseInt_examples :
  parseInt (JSstring (lit "  -12px")) = Int (-12) /\
  parseInt (JSstring (lit "+7")) = Int 7 /\
  parseInt (JSstring (lit "0x10")) = Int 0 /\
  parseInt (JSstring (lit "abc")) = NaN /\
  parseInt (JSstring (lit "- 3")) = NaN /\
  parseInt (JSstring []) = NaN /\
  parseInt JSundefined = NaN /\
  parseInt (JSnumber 1000) = Int 1000.
Proof. by split_and!. Qed.

Example or_default_examples :
  or_default NaN 16 = 16 /\ or_default (Int 0) 16 = 16 /\
  or_default (Int (-3)) 16 = -3 /\ or_default (Int 20) 16 = 20.
Proof. by split_and!. Qed.

Example join_examples :
  join (lit "-") [] = [] /\
  join (lit "-") [Some (lit "a")] = lit "a" /\
  join (lit "-") [Some (lit "a"); None; Some (lit "b")] = lit "a--b".
Proof. by split_and!. Qed.

Example iterate_examples :
  iterate (lit "aba") = [lit "a"; lit "b"; lit "a"] /\
  iterate [55357; 56832; 97] = [[55357; 56832]; [97]] /\
  iterate [56832; 55357] = [[56832]; [55357]].
Proof. by split_and!. Qed.

(** ** The monad *)

Lemma bind_Returned {A B : Type} (m : M A) (k : A -> M B) src pos b pos'' :
  bind m k src pos = Returned (b, pos'') ->
  exists a pos', m src pos = Returned (a, pos') /\ k a src pos' = Returned (b, pos'').
Proof.
  unfold bind. destruct (m src pos) as [[a pos']| |]; [eauto | discriminate..].
Qed.

Lemma bind_Thrown {A B : Type} (m : M A) (k : A -> M B) src pos e :
  bind m k src pos = Thrown e ->
  m src pos = Thrown e \/
  exists a pos', m src pos = Returned (a, pos') /\ k a src pos' = Thrown e.
Proof.
  unfold bind. destruct (m src pos) as [[a pos']| |]; [eauto | | discriminate].
  intros [= ->]. by left.
Qed.

(** ** The rejection loop *)

(** The loop never throws. *)
Lemma draw_loop_not_Thrown fuel limit src pos e :
  draw_loop fuel limit src pos <> Thrown e.
Proof.
  revert pos. induction fuel as [|fuel IH]; intros pos; simpl; [discriminate|].
  unfold bind, getRandomValues.
  destruct (_ >=? limit); [apply IH | discriminate].
Qed.

(** When the loop returns, it returns the first draw below the limit. *)
Lemma draw_loop_Returned fuel limit src pos v pos' :
  draw_loop fuel limit src pos = Returned (v, pos') ->
  exists k : nat,
    (k < fuel)%nat /\ pos' = S (pos + k) /\
    v = src (pos + k)%nat mod 2 ^ 32 /\ v < limit /\
    forall j : nat, (j < k)%nat -> limit <= src (pos + j)%nat mod 2 ^ 32.
Proof.
  revert pos. induction fuel as [|fuel IH]; intros pos; simpl; [discriminate|].
  unfold bind, getRandomValues.
  destruct (Z.geb_spec (src pos mod 2 ^ 32) limit) as [Hge|Hlt].
  - intros (k & Hk & -> & -> & Hv & Hrej)%IH.
    exists (S k). replace (pos + S k)%nat with (S pos + k)%nat by lia.
    split_and!; [lia | done | done | done |].
    intros [|j] Hj.
    + by rewrite Nat.add_0_r.
    + replace (pos + S j)%nat with (S pos + j)%nat by lia. apply Hrej. lia.
  - intros [= <- <-]. exists 0%nat. rewrite Nat.add_0_r.
    split_and!; [lia | done | done | lia |]. intros j Hj. lia.
Qed.

(** The loop returns as soon as a draw is below the limit. *)
Lemma draw_loop_accepts fuel limit src pos (k : nat) :
  (k < fuel)%nat ->
  src (pos + k)%nat mod 2 ^ 32 < limit ->
  exists v pos', draw_loop fuel limit src pos = Returned (v, pos').
Proof.
  revert pos k. induction fuel as [|fuel IH]; intros pos k Hk Hacc; [lia|].
  simpl. unfold bind, getRandomValues.
  destruct (Z.geb_spec (src pos mod 2 ^ 32) limit) as [Hge|Hlt]; [|by eauto].
  destruct k as [|k]; [rewrite Nat.add_0_r in Hacc; lia|].
  apply (IH (S pos) k); [lia|]. by replace (S pos + k)%nat with (pos + S k)%nat by lia.
Qed.

(** The loop is out of fuel exactly when every draw it made was rejected. *)
Lemma draw_loop_OutOfFuel fuel limit src pos :
  draw_loop fuel limit src pos = OutOfFuel <->
  forall j : nat, (j < fuel)%nat -> limit <= src (pos + j)%nat mod 2 ^ 32.
Proof.
  revert pos. induction fuel as [|fuel IH]; intros pos; simpl.
  - split; [intros _ j Hj; lia | done].
  - unfold bind, getRandomValues.
    destruct (Z.geb_spec (src pos mod 2 ^ 32) limit) as [Hge|Hlt].
    + rewrite IH. split.
      * intros Hrej [|j] Hj; [by rewrite Nat.add_0_r|].
        replace (pos + S j)%nat with (S pos + j)%nat by lia. apply Hrej. lia.
      * intros Hrej j Hj.
        replace (S pos + j)%nat with (pos + S j)%nat by lia. apply Hrej. lia.
    + split; [done|]. intros Hrej.
      specialize (Hrej 0%nat ltac:(lia)). rewrite Nat.add_0_r in Hrej. lia.
Qed.

(** With a limit of [0] or less every draw is rejected. *)
Lemma draw_loop_rejects_all fuel limit src pos :
  limit <= 0 -> draw_loop fuel limit src pos = OutOfFuel.
Proof.
  intros Hlimit. revert pos. induction fuel as [|fuel IH]; intros pos; simpl; [done|].
  unfold bind, getRandomValues.
  destruct (Z.geb_spec (src pos mod 2 ^ 32) limit) as [Hge|Hlt]; [apply IH|].
  pose proof (Z.mod_pos_bound (src pos) (2 ^ 32)). lia.
Qed.

(** ** The threshold *)

Lemma maxValid_bounds max :
  0 < max -> max <= 2 ^ 32 -> 0 < maxValid max <= 2 ^ 32.
Proof.
  intros Hpos Hle. unfold maxValid.
  pose proof (Z.mul_div_le (2 ^ 32) max Hpos).
  assert (1 <= 2 ^ 32 / max) by (apply Z.div_le_lower_bound; lia).
  nia.
Qed.

Lemma maxValid_too_large max : 2 ^ 32 < max -> maxValid max = 0.
Proof.
  intros Hlt. unfold maxValid. rewrite Z.div_small; lia.
Qed.

(** ** [secureRandom] *)

Lemma secureRandom_nonpositive fuel max src pos :
  max <= 0 ->
  secureRandom fuel max src pos = Thrown (Error "secureRandom: max must be positive").
Proof.
  intros Hmax. unfold secureRandom.
  destruct (Z.leb_spec max 0); [done | lia].
Qed.

Lemma secureRandom_one fuel src pos :
  secureRandom fuel 1 src pos = Returned (0, pos).
Proof. done. Qed.

(** Above [1], [secureRandom] is the rejection loop followed by [%]. *)
Lemma secureRandom_loop fuel max src pos :
  1 < max ->
  secureRandom fuel max src pos =
  bind (draw_loop fuel (maxValid max)) (fun value => ret (Z.rem value max)) src pos.
Proof.
  intros Hmax. unfold secureRandom.
  destruct (Z.leb_spec max 0); [lia|].
  destruct (Z.eqb_spec max 1); [lia | done].
Qed.

Lemma secureRandom_not_Thrown fuel max src pos e :
  0 < max -> secureRandom fuel max src pos <> Thrown e.
Proof.
  intros Hmax. destruct (decide (max = 1)) as [->|Hne].
  - by rewrite secureRandom_one.
  - rewrite secureRandom_loop by lia.
    intros [Hloop|(a & pos' & _ & Hret)]%bind_Thrown; [|discriminate].
    by apply draw_loop_not_Thrown in Hloop.
Qed.

(** A returned value comes from the first accepted draw and is in range. *)
Lemma secureRandom_Returned fuel max src pos v pos' :
  1 < max ->
  secureRandom fuel max src pos = Returned (v, pos') ->
  exists k : nat,
    (k < fuel)%nat /\ pos' = S (pos + k) /\
    src (pos + k)%nat mod 2 ^ 32 < maxValid max /\
    v = (src (pos + k)%nat mod 2 ^ 32) mod max /\
    0 <= v < max.
Proof.
  intros Hmax. rewrite secureRandom_loop by done.
  intros (value & pos1 & Hloop & [= <- <-])%bind_Returned.
  apply draw_loop_Returned in Hloop as (k & Hk & -> & -> & Hacc & _).
  exists k. pose proof (Z.mod_pos_bound (src (pos + k)%nat) (2 ^ 32)).
  rewrite Z.rem_mod_nonneg by lia.
  pose proof (Z.mod_pos_bound (src (pos + k)%nat mod 2 ^ 32) max).
  split_and!; [done | done | done | done | lia | lia].
Qed.

Lemma secureRandom_in_range fuel max src pos v pos' :
  0 < max ->
  secureRandom fuel max src pos = Returned (v, pos') ->
  0 <= v < max.
Proof.
  intros Hmax Hret. destruct (decide (max = 1)) as [->|Hne].
  - rewrite secureRandom_one in Hret. injection Hret as <- _. lia.
  - apply secureRandom_Returned in Hret as (k & _ & _ & _ & _ & Hv); [done | lia].
Qed.

Lemma secureRandom_accepts fuel max src pos (k : nat) :
  0 < max ->
  (k < fuel)%nat ->
  src (pos + k)%nat mod 2 ^ 32 < maxValid max ->
  exists v pos', secureRandom fuel max src pos = Returned (v, pos').
Proof.
  intros Hmax Hk Hacc. destruct (decide (max = 1)) as [->|Hne].
  - rewrite secureRandom_one. eauto.
  - rewrite secureRandom_loop by lia.
    destruct (draw_loop_accepts fuel _ src pos k Hk Hacc) as (v & pos' & Hloop).
    unfold bind. rewrite Hloop. unfold ret. eauto.
Qed.

(** When [max] divides 2^32 no draw is rejected: one draw is enough. *)
Lemma secureRandom_power_of_two fuel max src pos :
  1 < max -> 2 ^ 32 mod max = 0 ->
  secureRandom (S fuel) max src pos =
  Returned ((src pos mod 2 ^ 32) mod max, S pos).
Proof.
  intros Hmax Hdiv. rewrite secureRandom_loop by done.
  assert (maxValid max = 2 ^ 32) as Hlimit.
  { unfold maxValid. pose proof (Z.div_mod (2 ^ 32) max). lia. }
  pose proof (Z.mod_pos_bound (src pos) (2 ^ 32)).
  unfold bind. simpl draw_loop. unfold bind, getRandomValues. rewrite Hlimit.
  destruct (Z.geb_spec (src pos mod 2 ^ 32) (2 ^ 32)); [lia|].
  unfold ret. by rewrite Z.rem_mod_nonneg by lia.
Qed.

(** C2. [secureRandom(max)] throws (the InvalidArgument failure) exactly
    when [max <= 0]; [secureRandom(1)] returns 0 and leaves the entropy
    source where it was; and for [1 < max] (in particular up to 2^32), on
    every stream of draws, a returned value [v] satisfies [0 <= v < max]
    and is the first accepted draw reduced modulo [max]. *)
Theorem secureRandom_contract (fuel : nat) (max : Z) (src : nat -> Z) (pos : nat) :
  ((exists e, secureRandom fuel max src pos = Thrown e /\ InvalidArgument e)
   <-> max <= 0) /\
  ((exists e, secureRandom fuel max src pos = Thrown e) <-> max <= 0) /\
  (max = 1 -> secureRandom fuel max src pos = Returned (0, pos)) /\
  (1 < max ->
   forall v pos', secureRandom fuel max src pos = Returned (v, pos') ->
     0 <= v < max /\
     exists k : nat,
       pos' = S (pos + k) /\
       src (pos + k)%nat mod 2 ^ 32 < maxValid max /\
       v = (src (pos + k)%nat mod 2 ^ 32) mod max).
Proof.
  split_and!.
  - split.
    + intros (e & Hthrown & _). destruct (Z.leb_spec max 0) as [|Hpos]; [done|].
      by apply secureRandom_not_Thrown in Hthrown.
    + intros Hmax. eexists. split; [by apply secureRandom_nonpositive|]. by left.
  - split.
    + intros (e & Hthrown). destruct (Z.leb_spec max 0) as [|Hpos]; [done|].
      by apply secureRandom_not_Thrown in Hthrown.
    + intros Hmax. eexists. by apply secureRandom_nonpositive.
  - intros ->. apply secureRandom_one.
  - intros Hmax v pos' Hret.
    apply secureRandom_Returned in Hret as (k & _ & -> & Hacc & -> & Hv); [|done].
    split; [done|]. by exists k.
Qed.

(** C10. For [max > 2^32] the threshold is 0, every draw is rejected and
    no amount of fuel makes [secureRandom] return, whatever the stream of
    draws; for [0 < max <= 2^32] the threshold is positive and the call
    returns as soon as the stream yields a draw below it. *)
Theorem secureRandom_termination (max : Z) :
  (2 ^ 32 < max ->
   maxValid max = 0 /\
   (forall src pos v pos',
      getRandomValues src pos = Returned (v, pos') -> v >= maxValid max) /\
   (forall fuel src pos, secureRandom fuel max src pos = OutOfFuel)) /\
  (0 < max <= 2 ^ 32 ->
   0 < maxValid max /\
   forall fuel src pos (k : nat),
     (k < fuel)%nat ->
     src (pos + k)%nat mod 2 ^ 32 < maxValid max ->
     exists v pos', secureRandom fuel max src pos = Returned (v, pos')).
Proof.
  split.
  - intros Hmax. pose proof (maxValid_too_large max Hmax) as Hzero.
    split_and!; [done | |].
    + intros src pos v pos' [= <- _]. rewrite Hzero.
      pose proof (Z.mod_pos_bound (src pos) (2 ^ 32)). lia.
    + intros fuel src pos. rewrite secureRandom_loop by lia.
      unfold bind. rewrite draw_loop_rejects_all; [done | lia].
  - intros [Hpos Hle]. split; [by apply maxValid_bounds|].
    intros fuel src pos k Hk Hacc. by apply (secureRandom_accepts _ _ _ _ k).
Qed.

Lemma secureRandom_termination_witness :
  2 ^ 32 < 2 ^ 32 + 1 /\
  maxValid (2 ^ 32 + 1) = 0 /\
  secureRandom 5 (2 ^ 32 + 1) (fun n => Z.of_nat n) 0%nat = OutOfFuel /\
  0 < 10 <= 2 ^ 32 /\
  exists v pos', secureRandom 3 10 (fun _ => 7) 0%nat = Returned (v, pos').
Proof.
  split; [lia|].
  destruct (proj1 (secureRandom_termination (2 ^ 32 + 1))) as (Hzero & _ & Hloop); [lia|].
  split; [exact Hzero|]. split; [apply Hloop|].
  split; [lia|].
  destruct (proj2 (secureRandom_termination 10)) as (_ & Hret); [lia|].
  apply (Hret 3%nat (fun _ => 7) 0%nat 0%nat); [lia|]. vm_compute. reflexivity.
Defined.

Lemma secureRandom_contract_witness :
  1 < 6 /\
  secureRandom 2 6 (fun n => 4294967295 - 10 * Z.of_nat n) 0%nat = Returned (5, 2%nat) /\
  0 <= 5 < 6.
Proof.
  split; [lia|]. split; [vm_compute; reflexivity|].
  apply (proj2 (proj2 (proj2
    (secureRandom_contract 2 6 (fun n => 4294967295 - 10 * Z.of_nat n) 0%nat)))
    ltac:(lia) 5 2%nat).
  vm_compute. reflexivity.
Defined.

(** ** Counting the preimages of an output *)

Section Filter.
Context {A : Type} (P Q : A -> Prop).
Context `{!forall x, Decision (P x)} `{!forall x, Decision (Q x)}.

Lemma filter_ext_elem_of (l : list A) :
  (forall x, x ∈ l -> P x <-> Q x) -> filter P l = filter Q l.
Proof.
  induction l as [|a l IH]; intros Hext; [done|].
  rewrite !filter_cons.
  rewrite IH by (intros x Hx; apply Hext; by right).
  pose proof (Hext a ltac:(by left)).
  destruct (decide (P a)), (decide (Q a)); tauto.
Qed.

Lemma filter_none (l : list A) :
  (forall x, x ∈ l -> ~ P x) -> filter P l = [].
Proof.
  induction l as [|a l IH]; intros Hnone; [done|].
  rewrite filter_cons, IH by (intros x Hx; apply Hnone; by right).
  destruct (decide (P a)) as [HP|]; [|done].
  by apply Hnone in HP; [|left].
Qed.
End Filter.

Section Residues.
Variables (m y : Z).
Hypothesis (Hm : 0 < m) (Hy : 0 <= y < m).

(** An offset below [m] from a multiple of [m] is the residue. *)
Lemma residue_in_block a v :
  a mod m = 0 -> a <= v < a + m -> v mod m = v - a.
Proof using Hm.
  intros Ha Hv. symmetry. apply (Z.mod_unique_pos v m (a / m)); [lia|].
  pose proof (Z.div_mod a m). lia.
Qed.

(** In a block of [m] consecutive values that starts at a multiple of
    [m], exactly one has residue [y]. *)
Lemma one_residue_per_block a :
  a mod m = 0 -> filter (fun v => v mod m = y) (seqZ a m) = [a + y].
Proof using Hm Hy.
  intros Ha.
  assert (seqZ a m = seqZ a y ++ seqZ (a + y) 1 ++ seqZ (a + y + 1) (m - y - 1))
    as -> by (rewrite <- !seqZ_app by lia; f_equal; lia).
  rewrite !filter_app.
  rewrite (filter_none _ (seqZ a y)), (filter_none _ (seqZ (a + y + 1) _)).
  - rewrite (seqZ_cons _ 1), seqZ_nil by lia. rewrite filter_cons, filter_nil.
    destruct (decide ((a + y) mod m = y)) as [|Hne]; [done|].
    rewrite (residue_in_block a) in Hne; [lia | done | lia].
  - intros v Hv%elem_of_seqZ. rewrite (residue_in_block a); [lia | done | lia].
  - intros v Hv%elem_of_seqZ. rewrite (residue_in_block a); [lia | done | lia].
Qed.

(** Below [n * m] there are exactly [n] values of residue [y]. *)
Lemma residues_below_multiple (n : nat) :
  length (filter (fun v => v mod m = y) (seqZ 0 (Z.of_nat n * m))) = n.
Proof using Hm Hy.
  induction n as [|n IH]; [done|].
  replace (Z.of_nat (S n) * m) with (Z.of_nat n * m + m) by lia.
  rewrite seqZ_app, filter_app, length_app, IH by lia.
  rewrite Z.add_0_l, one_residue_per_block by (apply Z.mod_mul; lia).
  simpl. lia.
Qed.
End Residues.

(** What a single 32-bit draw leads to. *)
Lemma output_of_draw_spec max v :
  1 < max -> 0 <= v < 2 ^ 32 ->
  output_of_draw max v = if v <? maxValid max then Some (v mod max) else None.
Proof.
  intros Hmax Hv. unfold output_of_draw. rewrite secureRandom_loop by done.
  unfold bind. simpl draw_loop. unfold bind, getRandomValues.
  rewrite Z.mod_small by done.
  destruct (Z.geb_spec v (maxValid max)), (Z.ltb_spec v (maxValid max)); try lia.
  - done.
  - unfold ret. by rewrite Z.rem_mod_nonneg by lia.
Qed.

Lemma elem_of_preimages max y v :
  1 < max ->
  v ∈ preimages max y <-> 0 <= v < 2 ^ 32 /\ v < maxValid max /\ v mod max = y.
Proof.
  intros Hmax. unfold preimages. rewrite list_elem_of_filter, elem_of_seqZ.
  split.
  - intros [Hout Hv]. rewrite output_of_draw_spec in Hout by lia.
    destruct (Z.ltb_spec v (maxValid max)); [|done].
    injection Hout as Hy. lia.
  - intros (Hv & Hacc & Hy). split; [|lia].
    rewrite output_of_draw_spec by lia.
    destruct (Z.ltb_spec v (maxValid max)); [by rewrite Hy | lia].
Qed.

Lemma length_preimages max y :
  1 < max <= 2 ^ 32 -> 0 <= y < max ->
  Z.of_nat (length (preimages max y)) = 2 ^ 32 / max.
Proof.
  intros [Hmax Hle] Hy. unfold preimages.
  pose proof (maxValid_bounds max ltac:(lia) Hle) as Hlimit.
  assert (0 <= 2 ^ 32 / max) as Hq by (apply Z.div_pos; lia).
  replace (2 ^ 32) with (maxValid max + (2 ^ 32 - maxValid max)) at 1 by lia.
  rewrite seqZ_app, filter_app by lia.
  rewrite (filter_none _ (seqZ (0 + maxValid max) _)), app_nil_r.
  - rewrite (filter_ext_elem_of _ (fun v => v mod max = y)).
    + unfold maxValid. rewrite <- (Z2Nat.id (2 ^ 32 / max)) at 1 by done.
      rewrite residues_below_multiple by lia. by rewrite Z2Nat.id.
    + intros v Hv%elem_of_seqZ. rewrite output_of_draw_spec by lia.
      destruct (Z.ltb_spec v (maxValid max)); [|lia].
      split; [by intros [= ?] | by intros ->].
  - intros v Hv%elem_of_seqZ. rewrite output_of_draw_spec by lia.
    destruct (Z.ltb_spec v (maxValid max)); [lia | done].
Qed.

(** C1. For [1 < max <= 2^32] the rejection sampling of [secureRandom] is
    unbiased: with [limit = floor(2^32 / max) * max], a 32-bit draw [v]
    leads to the output [y] exactly when [v < limit] and [v mod max = y],
    and every output [y] in [0, max) has the same number of such draws,
    [floor(2^32 / max)]. *)
Theorem secureRandom_unbiased (max y : Z) :
  1 < max <= 2 ^ 32 -> 0 <= y < max ->
  maxValid max = 2 ^ 32 / max * max /\
  (forall v, v ∈ preimages max y <-> 0 <= v < maxValid max /\ v mod max = y) /\
  NoDup (preimages max y) /\
  Z.of_nat (length (preimages max y)) = 2 ^ 32 / max.
Proof.
  intros Hmax Hy. split_and!.
  - done.
  - intros v. rewrite elem_of_preimages by lia.
    pose proof (maxValid_bounds max ltac:(lia) ltac:(lia)). lia.
  - unfold preimages. apply NoDup_filter. apply NoDup_seqZ.
  - by apply length_preimages.
Qed.

Lemma secureRandom_unbiased_witness :
  1 < 3 <= 2 ^ 32 /\ 0 <= 2 < 3 /\
  Z.of_nat (length (preimages 3 2)) = 2 ^ 32 / 3.
Proof.
  split; [lia|]. split; [lia|].
  apply (secureRandom_unbiased 3 2); lia.
Defined.

(** ** [getStrengthDescription] *)

Lemma labels_distinct :
  NoDup [Label.weak; Label.medium; Label.strong; Label.very_strong].
Proof. apply (bool_decide_unpack _). vm_compute. exact I. Qed.

(** C8. [getStrengthDescription] splits the scores at 40, 70 and 90, each
    band including its lower bound: below 40 the label is "weak", from 40
    below 70 "medium", from 70 below 90 "strong", from 90 on "very
    strong" (the page prints the labels in Russian); the four labels are
    distinct, so each label names its band; and the scores 0, 39, 40, 69,
    70, 89, 90, 100 get weak, weak, medium, medium, strong, strong, very
    strong, very strong. *)
Theorem getStrengthDescription_thresholds :
  (forall score : Z,
     (getStrengthDescription score = Label.weak <-> score < 40) /\
     (getStrengthDescription score = Label.medium <-> 40 <= score < 70) /\
     (getStrengthDescription score = Label.strong <-> 70 <= score < 90) /\
     (getStrengthDescription score = Label.very_strong <-> 90 <= score)) /\
  map getStrengthDescription [0; 39; 40; 69; 70; 89; 90; 100] =
    [Label.weak; Label.weak; Label.medium; Label.medium;
     Label.strong; Label.strong; Label.very_strong; Label.very_strong].
Proof.
  split; [|reflexivity].
  intros score. unfold getStrengthDescription.
  destruct (Z.ltb_spec score 40), (Z.ltb_spec score 70), (Z.ltb_spec score 90);
    try lia;
    (split_and!; (split; [intros Heq; try lia | intros Hband; try lia; try done]));
    exfalso; vm_compute in Heq; discriminate.
Qed.

Lemma getStrengthDescription_thresholds_witness :
  40 <= 55 < 70 /\ getStrengthDescription 55 = Label.medium.
Proof.
  split; [lia|].
  apply (proj1 getStrengthDescription_thresholds 55). lia.
Defined.

(** ** [calculateStrength] *)

(** [regex.test] finds a code unit of the class exactly when one exists. *)
Lemma present_test class p : present class p = Z.b2z (test class p).
Proof.
  unfold present, test.
  destruct (decide (Exists (fun c => class c = true) p)) as [Hex|Hnex];
    destruct (existsb class p) eqn:Htest; try done.
  - apply Exists_exists in Hex as (c & Hc & Hclass).
    assert (existsb class p = true) as Habs; [|congruence].
    apply existsb_exists. exists c. by rewrite <- list_elem_of_In.
  - destruct Hnex. apply existsb_exists in Htest as (c & Hc & Hclass).
    apply Exists_exists. exists c. by rewrite list_elem_of_In.
Qed.

(** [filter(Boolean).length] counts the classes that are present. *)
Lemma varietyCount_sum (b1 b2 b3 b4 : bool) :
  Z.of_nat (length (List.filter Boolean [b1; b2; b3; b4])) =
  Z.b2z b1 + Z.b2z b2 + Z.b2z b3 + Z.b2z b4.
Proof. by destruct b1, b2, b3, b4. Qed.

(** The size of [new Set(password)] is the number of distinct elements the
    string iterator yields. *)
Lemma uniqueChars_distinct (p : jsstring) :
  Z.of_nat (size (list_to_set (iterate p) : gset jsstring)) = distinct_characters p.
Proof.
  unfold distinct_characters.
  rewrite <- (size_list_to_set (C := gset jsstring) (remove_dups (iterate p)))
    by apply NoDup_remove_dups.
  do 2 f_equal. apply set_eq. intros x.
  by rewrite !elem_of_list_to_set, elem_of_remove_dups.
Qed.

(** The iterator yields at most one element per code unit. *)
Lemma length_iterate (p : jsstring) : (length (iterate p) <= length p)%nat.
Proof.
  assert (forall (n : nat) (q : jsstring),
            (length q <= n)%nat -> (length (iterate q) <= length q)%nat) as Hn.
  { induction n as [|n IH]; intros [|c [|d q]] Hq; simpl in *; try lia.
    destruct (is_high_surrogate c && is_low_surrogate d); simpl.
    - specialize (IH q ltac:(lia)). lia.
    - specialize (IH (d :: q) ltac:(simpl; lia)). simpl in IH. lia. }
  by apply (Hn (length p)).
Qed.

Lemma distinct_characters_le (p : jsstring) :
  0 <= distinct_characters p <= Z.of_nat (length p).
Proof.
  unfold distinct_characters.
  pose proof (length_iterate p).
  assert (length (remove_dups (iterate p)) <= length (iterate p))%nat; [|lia].
  apply submseteq_length, NoDup_submseteq; [apply NoDup_remove_dups|].
  intros x. by rewrite elem_of_remove_dups.
Qed.

Example calculateStrength_empty : calculateStrength [] = 0.
Proof. reflexivity. Qed.

Example calculateStrength_repeats :
  calculateStrength (lit "aaaaaa") = 29 /\ calculateStrength (lit "aB3!xy") = 84.
Proof. split; vm_compute; reflexivity. Qed.

(** A character outside the Basic Multilingual Plane is two code units for
    the length and one element for the set. *)
Example calculateStrength_surrogate_pair : calculateStrength [55357; 56832] = 21.
Proof. vm_compute. reflexivity. Qed.

(** ** Loops that draw indices *)

Lemma draws_in_range fuel max src pos idxs pos' :
  0 < max -> draws fuel max src pos idxs pos' -> Forall (fun i => 0 <= i < max) idxs.
Proof.
  intros Hmax. induction 1 as [|pos i pos1 idxs pos' Hdraw _ IH]; constructor; [|done].
  by apply secureRandom_in_range in Hdraw.
Qed.

Section SampleLoop.
Context {S : Type} (fuel : nat) (max : Z) (f : S -> Z -> S).

(** A loop body that draws one index and folds it into the accumulator. *)
Local Abbreviation body :=
  (fun acc : S => let* i := secureRandom fuel max in ret (f acc i)).

Lemma sample_loop_Returned n acc src pos r pos' :
  for_loop n body acc src pos = Returned (r, pos') ->
  exists idxs,
    draws fuel max src pos idxs pos' /\ length idxs = n /\ r = fold_left f idxs acc.
Proof.
  revert acc pos. induction n as [|n IH]; intros acc pos; simpl.
  - intros [= <- <-]. exists []. split_and!; [constructor | done | done].
  - intros (acc' & pos1 & Hbody & Hrest)%bind_Returned.
    apply bind_Returned in Hbody as (i & pos2 & Hdraw & [= <- <-]).
    apply IH in Hrest as (idxs & Hdraws & Hlen & ->).
    exists (i :: idxs). split_and!; [by econstructor | by simpl; f_equal | done].
Qed.

Lemma sample_loop_not_Thrown n acc src pos e :
  0 < max -> for_loop n body acc src pos <> Thrown e.
Proof.
  intros Hmax. revert acc pos. induction n as [|n IH]; intros acc pos; simpl; [done|].
  intros [Hbody|(acc' & pos1 & _ & Hrest)]%bind_Thrown; [|by apply IH in Hrest].
  apply bind_Thrown in Hbody as [Hdraw|(i & pos2 & _ & Hret)]; [|done].
  by apply secureRandom_not_Thrown in Hdraw.
Qed.

(** On a stream whose draws are all below the threshold, each iteration
    returns at its first draw. *)
Lemma sample_loop_returns n acc src pos :
  0 < max -> (0 < fuel)%nat ->
  (forall k : nat, src k mod 2 ^ 32 < maxValid max) ->
  exists r pos', for_loop n body acc src pos = Returned (r, pos').
Proof.
  intros Hmax Hfuel Hacc. revert acc pos.
  induction n as [|n IH]; intros acc pos; simpl; [by eexists _, _|].
  destruct (secureRandom_accepts fuel max src pos 0 Hmax Hfuel (Hacc _))
    as (i & pos1 & Hdraw).
  destruct (IH (f acc i) pos1) as (r & pos' & Hrest).
  exists r, pos'. unfold bind in *. by rewrite Hdraw.
Qed.
End SampleLoop.

(** ** [generatePassword] *)

Lemma elem_of_build_pool o c : c ∈ build_pool o <-> in_enabled_sets o c.
Proof.
  unfold build_pool, in_enabled_sets.
  destruct (lower o), (upper o), (numbers o), (symbols o);
    rewrite ?elem_of_app, ?elem_of_nil; intuition discriminate.
Qed.

Lemma build_pool_nil o : build_pool o = [] <-> no_set_selected o.
Proof.
  unfold build_pool, no_set_selected.
  destruct (lower o), (upper o), (numbers o), (symbols o);
    (split; [try done; intros [=] | intros (? & ? & ? & ?); done]).
Qed.

Lemma length_pos_of_not_nil {A : Type} (l : list A) :
  l <> [] -> 0 < Z.of_nat (length l).
Proof. destruct l; [done | simpl; lia]. Qed.

(** The clamp, for each kind of argument. *)
Lemma password_length_bounds v : 6 <= password_length v <= 64.
Proof. unfold password_length. lia. Qed.

Lemma password_length_default v :
  parseInt v = NaN \/ parseInt v = Int 0 -> password_length v = 16.
Proof. unfold password_length. by intros [-> | ->]. Qed.

Lemma password_length_clamp v n :
  parseInt v = Int n -> n <> 0 -> password_length v = Z.max 6 (Z.min 64 n).
Proof.
  unfold password_length. intros -> Hn. simpl.
  by destruct (Z.eqb_spec n 0).
Qed.

Lemma index_in_range (s : jsstring) (i : Z) :
  0 <= i < Z.of_nat (length s) ->
  exists c, index s i = Some [c] /\ s !! Z.to_nat i = Some c.
Proof.
  intros Hi. unfold index. destruct (Z.ltb_spec i 0); [lia|].
  destruct (lookup_lt_is_Some_2 s (Z.to_nat i) ltac:(lia)) as [c Hc].
  exists c. by rewrite Hc.
Qed.

(** Folding in-range indices appends one character of the pool each. *)
Lemma fold_next_char (pool : jsstring) idxs acc :
  Forall (fun i => 0 <= i < Z.of_nat (length pool)) idxs ->
  exists cs,
    Forall2 (fun i c => pool !! Z.to_nat i = Some c) idxs cs /\
    fold_left (fun password i => append password (index pool i)) idxs acc = acc ++ cs.
Proof.
  intros Hidxs. revert acc.
  induction Hidxs as [|i idxs Hi _ IH]; intros acc; simpl.
  - exists []. by rewrite app_nil_r.
  - destruct (index_in_range pool i Hi) as (c & -> & Hc). simpl.
    destruct (IH (acc ++ [c])) as (cs & Hcs & ->).
    exists (c :: cs). split; [by constructor | by rewrite <- app_assoc].
Qed.

(** A returned password is made of the pool's characters at the indices
    drawn, in the order of the draws. *)
Lemma generatePassword_Returned fuel v o src pos s pos' :
  generatePassword fuel v o src pos = Returned (s, pos') ->
  exists idxs,
    draws fuel (Z.of_nat (length (build_pool o))) src pos idxs pos' /\
    Forall2 (fun i c => build_pool o !! Z.to_nat i = Some c) idxs s /\
    Z.of_nat (length s) = password_length v.
Proof.
  unfold generatePassword. destruct (build_pool o) as [|c0 pool] eqn:Hpool; [done|].
  intros (idxs & Hdraws & Hlen & ->)%sample_loop_Returned.
  pose proof Hdraws as Hrange.
  apply draws_in_range in Hrange; [|simpl length; lia].
  destruct (fold_next_char (c0 :: pool) idxs [] Hrange) as (cs & Hcs & ->).
  exists idxs. split_and!; [done | done |].
  simpl. rewrite <- (Forall2_length _ _ _ Hcs), Hlen.
  pose proof (password_length_bounds v). lia.
Qed.

Lemma generatePassword_Thrown fuel v o src pos e :
  generatePassword fuel v o src pos = Thrown e ->
  no_set_selected o /\ e = Error "At least one character set must be selected".
Proof.
  unfold generatePassword. destruct (build_pool o) as [|c0 pool] eqn:Hpool.
  - intros [= <-]. split; [by apply build_pool_nil | done].
  - intros Hthrown. by apply sample_loop_not_Thrown in Hthrown; [|simpl; lia].
Qed.

Lemma generatePassword_no_pool fuel v o src pos :
  no_set_selected o ->
  generatePassword fuel v o src pos =
  Thrown (Error "At least one character set must be selected").
Proof. intros Hnone%build_pool_nil. unfold generatePassword. by rewrite Hnone. Qed.

Lemma generatePassword_returns fuel v o src pos :
  ~ no_set_selected o -> (0 < fuel)%nat ->
  (forall k : nat, src k mod 2 ^ 32 < maxValid (Z.of_nat (length (build_pool o)))) ->
  exists s pos', generatePassword fuel v o src pos = Returned (s, pos').
Proof.
  intros Hsome Hfuel Hacc. unfold generatePassword.
  destruct (build_pool o) as [|c0 pool] eqn:Hpool; [by apply build_pool_nil in Hpool|].
  apply sample_loop_returns; [simpl; lia | done | done].
Qed.

(** C4. [generatePassword] throws (the InvalidArgument failure) exactly
    when the pool built from the options is empty, that is when the four
    flags are all false; this holds for every length argument, and then
    no string is returned. *)
Theorem generatePassword_empty_pool (fuel : nat) (length : jsval) (o : options)
  (src : nat -> Z) (pos : nat) :
  (build_pool o = [] <-> no_set_selected o) /\
  ((exists e, generatePassword fuel length o src pos = Thrown e /\ InvalidArgument e)
   <-> no_set_selected o) /\
  ((exists e, generatePassword fuel length o src pos = Thrown e)
   <-> no_set_selected o) /\
  (no_set_selected o ->
   forall s pos', generatePassword fuel length o src pos <> Returned (s, pos')).
Proof.
  split_and!.
  - apply build_pool_nil.
  - split.
    + by intros (e & [Hnone _]%generatePassword_Thrown & _).
    + intros Hnone. eexists. split; [by apply generatePassword_no_pool|]. by right.
  - split.
    + by intros (e & [Hnone _]%generatePassword_Thrown).
    + intros Hnone. eexists. by apply generatePassword_no_pool.
  - intros Hnone s pos'. by rewrite generatePassword_no_pool.
Qed.

Lemma generatePassword_empty_pool_witness :
  no_set_selected {| lower := false; upper := false; numbers := false; symbols := false |} /\
  forall s pos',
    generatePassword 3 (JSnumber 16)
      {| lower := false; upper := false; numbers := false; symbols := false |}
      (fun _ => 0) 0%nat <> Returned (s, pos').
Proof.
  split; [done|].
  apply (proj2 (proj2 (proj2 (generatePassword_empty_pool 3 (JSnumber 16)
    {| lower := false; upper := false; numbers := false; symbols := false |}
    (fun _ => 0) 0%nat)))).
  done.
Defined.

(** [generatePassword(0, {lower: true})] is 16 characters long, not 6:
    [parseInt(0, 10) || 16] is 16. *)
Lemma generatePassword_zero_length_counterexample :
  exists s pos',
    generatePassword 1 (JSnumber 0)
      {| lower := true; upper := false; numbers := false; symbols := false |}
      (fun _ => 0) 0%nat = Returned (s, pos') /\
    length s = 16%nat /\ length s <> 6%nat.
Proof.
  eexists _, _. split; [vm_compute; reflexivity|]. split; [reflexivity | discriminate].
Qed.

(** C3, amended. [generatePassword] clamps its length argument to [6, 64],
    an argument that [parseInt] reads as NaN (non-numeric or missing) or
    as 0 being replaced by 16 first; the value read is the argument's own
    for an integer below 2^53 in absolute value. A returned password has
    between 6 and 64 characters, exactly the clamped length for an
    argument in that range, and every character of it belongs to the
    union of the enabled character sets; on a stream whose draws are all
    accepted the call returns. So every password returned for the length
    0 has 16 characters, for 1000 it has 64 and for 16 it has 16. *)
Theorem generatePassword_length_clamp :
  (forall v, 6 <= password_length v <= 64) /\
  (forall v, parseInt v = NaN \/ parseInt v = Int 0 -> password_length v = 16) /\
  (forall v n, parseInt v = Int n -> n <> 0 -> Z.abs n < 2 ^ 53 ->
     password_length v = Z.max 6 (Z.min 64 n)) /\
  (forall fuel v o src pos s pos',
     generatePassword fuel v o src pos = Returned (s, pos') ->
     6 <= Z.of_nat (length s) <= 64 /\
     Forall (in_enabled_sets o) s /\
     (reads_back v -> Z.of_nat (length s) = password_length v)) /\
  (forall fuel v o src pos,
     ~ no_set_selected o -> (0 < fuel)%nat ->
     (forall k : nat, src k mod 2 ^ 32 < maxValid (Z.of_nat (length (build_pool o)))) ->
     exists s pos', generatePassword fuel v o src pos = Returned (s, pos')) /\
  (forall fuel o src pos s pos',
     (generatePassword fuel (JSnumber 0) o src pos = Returned (s, pos') ->
      length s = 16%nat) /\
     (generatePassword fuel (JSnumber 1000) o src pos = Returned (s, pos') ->
      length s = 64%nat) /\
     (generatePassword fuel (JSnumber 16) o src pos = Returned (s, pos') ->
      length s = 16%nat)).
Proof.
  split_and!.
  - apply password_length_bounds.
  - apply password_length_default.
  - intros v n Hparse Hn _. by apply password_length_clamp.
  - intros fuel v o src pos s pos' (idxs & _ & Hchars & Hlen)%generatePassword_Returned.
    pose proof (password_length_bounds v) as Hbounds.
    split_and!; [lia | lia | | done].
    apply Forall_forall. intros c Hc.
    apply elem_of_build_pool.
    apply list_elem_of_lookup in Hc as [j Hj].
    destruct (Forall2_lookup_r _ _ _ _ _ Hchars Hj) as (i & _ & Hi).
    by apply list_elem_of_lookup_2 in Hi.
  - apply generatePassword_returns.
  - intros fuel o src pos s pos'.
    pose proof (eq_refl : password_length (JSnumber 0) = 16).
    pose proof (eq_refl : password_length (JSnumber 1000) = 64).
    pose proof (eq_refl : password_length (JSnumber 16) = 16).
    split_and!; intros (idxs & _ & _ & Hlen)%generatePassword_Returned; lia.
Qed.

Lemma generatePassword_length_clamp_witness :
  reads_back (JSnumber 1000) /\
  generatePassword 1 (JSnumber 1000)
    {| lower := true; upper := false; numbers := false; symbols := false |}
    (fun _ => 0) 0%nat = Returned (replicate 64 97, 64%nat) /\
  Z.of_nat (length (replicate 64 97)) = password_length (JSnumber 1000) /\
  Forall (in_enabled_sets
            {| lower := true; upper := false; numbers := false; symbols := false |})
    (replicate 64 97).
Proof.
  assert (reads_back (JSnumber 1000)) as Hreads by (vm_compute; reflexivity).
  assert (generatePassword 1 (JSnumber 1000)
            {| lower := true; upper := false; numbers := false; symbols := false |}
            (fun _ => 0) 0%nat = Returned (replicate 64 97, 64%nat)) as Hrun
    by (vm_compute; reflexivity).
  destruct (proj1 (proj2 (proj2 (proj2 generatePassword_length_clamp)))
              _ _ _ _ _ _ _ Hrun) as (_ & Hchars & Hlen).
  split; [exact Hreads|]. split; [exact Hrun|].
  split; [exact (Hlen Hreads) | exact Hchars].
Defined.

(** ** [generatePassphrase] *)

Lemma word_count_bounds v : 3 <= word_count v <= 12.
Proof. unfold word_count. lia. Qed.

Lemma word_count_default v :
  parseInt v = NaN \/ parseInt v = Int 0 -> word_count v = 6.
Proof. unfold word_count. by intros [-> | ->]. Qed.

Lemma word_count_clamp v n :
  parseInt v = Int n -> n <> 0 -> word_count v = Z.max 3 (Z.min 12 n).
Proof.
  unfold word_count. intros -> Hn. simpl.
  by destruct (Z.eqb_spec n 0).
Qed.

Lemma separator_of_spec (separator : jsstring) :
  (length (separator_of separator) <= 10)%nat /\
  (separator = [] -> separator_of separator = lit "-") /\
  (separator <> [] -> separator_of separator = take 10 separator).
Proof.
  unfold separator_of, slice0. split_and!.
  - rewrite length_take. lia.
  - by intros ->.
  - by destruct separator.
Qed.

Lemma element_in_range {A : Type} (a : list A) (i : Z) :
  0 <= i < Z.of_nat (length a) ->
  exists x, element a i = Some x /\ a !! Z.to_nat i = Some x.
Proof.
  intros Hi. unfold element. destruct (Z.ltb_spec i 0); [lia|].
  destruct (lookup_lt_is_Some_2 a (Z.to_nat i) ltac:(lia)) as [x Hx]. eauto.
Qed.

(** Folding in-range indices pushes one word of the list each. *)
Lemma fold_next_word (ws : list jsstring) idxs acc :
  Forall (fun i => 0 <= i < Z.of_nat (length ws)) idxs ->
  exists words,
    Forall2 (fun i w => ws !! Z.to_nat i = Some w) idxs words /\
    fold_left (fun words i => words ++ [element ws i]) idxs acc =
    acc ++ (Some <$> words).
Proof.
  intros Hidxs. revert acc.
  induction Hidxs as [|i idxs Hi _ IH]; intros acc; simpl.
  - exists []. by rewrite app_nil_r.
  - destruct (element_in_range ws i Hi) as (w & -> & Hw).
    destruct (IH (acc ++ [Some w])) as (words & Hwords & ->).
    exists (w :: words). split; [by constructor | by rewrite <- app_assoc].
Qed.

(** A returned passphrase is the words at the indices drawn, joined in
    the order of the draws. *)
Lemma generatePassphrase_Returned fuel ws v separator src pos s pos' :
  generatePassphrase fuel (Some ws) v separator src pos = Returned (s, pos') ->
  exists idxs words,
    draws fuel (Z.of_nat (length ws)) src pos idxs pos' /\
    Forall2 (fun i w => ws !! Z.to_nat i = Some w) idxs words /\
    Z.of_nat (length words) = word_count v /\
    s = join (separator_of separator) (Some <$> words).
Proof.
  unfold generatePassphrase. destruct ws as [|w0 ws]; [done|].
  intros (words & pos1 & Hloop & [= <- <-])%bind_Returned.
  apply sample_loop_Returned in Hloop as (idxs & Hdraws & Hlen & ->).
  pose proof Hdraws as Hrange.
  apply draws_in_range in Hrange; [|simpl length; lia].
  destruct (fold_next_word (w0 :: ws) idxs [] Hrange) as (words & Hwords & ->).
  exists idxs, words. split_and!; [done | done | | done].
  rewrite <- (Forall2_length _ _ _ Hwords), Hlen.
  pose proof (word_count_bounds v). lia.
Qed.

Lemma generatePassphrase_Thrown fuel W v separator src pos e :
  generatePassphrase fuel W v separator src pos = Thrown e ->
  (W = None \/ W = Some []) /\ e = Error "BIP39 word list not loaded".
Proof.
  unfold generatePassphrase. destruct W as [[|w0 ws]|].
  - intros [= <-]. by split; [right|].
  - intros [Hloop|(words & pos1 & _ & Hret)]%bind_Thrown; [|done].
    by apply sample_loop_not_Thrown in Hloop; [|simpl; lia].
  - intros [= <-]. by split; [left|].
Qed.

Lemma generatePassphrase_not_loaded fuel W v separator src pos :
  W = None \/ W = Some [] ->
  generatePassphrase fuel W v separator src pos =
  Thrown (Error "BIP39 word list not loaded").
Proof. by intros [-> | ->]. Qed.

Lemma generatePassphrase_returns fuel ws v separator src pos :
  ws <> [] -> (0 < fuel)%nat ->
  (forall k : nat, src k mod 2 ^ 32 < maxValid (Z.of_nat (length ws))) ->
  exists s pos', generatePassphrase fuel (Some ws) v separator src pos = Returned (s, pos').
Proof.
  intros Hws Hfuel Hacc. unfold generatePassphrase.
  destruct ws as [|w0 ws]; [done|].
  assert (exists words pos',
            for_loop (Z.to_nat (word_count v)) (next_word fuel (w0 :: ws)) [] src pos
            = Returned (words, pos')) as (words & pos' & Hloop).
  { apply (sample_loop_returns fuel (Z.of_nat (length (w0 :: ws)))
             (fun words i => words ++ [element (w0 :: ws) i]));
      [simpl; lia | done | done]. }
  exists (join (separator_of separator) words), pos'.
  unfold bind. by rewrite Hloop.
Qed.

(** C6. [generatePassphrase] throws (the UnavailableResource failure)
    exactly when the word list is not loaded or is empty; this holds for
    every [wordCount] and [separator], and then no string is returned. *)
Theorem generatePassphrase_unavailable (fuel : nat)
  (BIP39_WORDS : option (list jsstring)) (wordCount : jsval)
  (separator : jsstring) (src : nat -> Z) (pos : nat) :
  ((exists e, generatePassphrase fuel BIP39_WORDS wordCount separator src pos = Thrown e
              /\ UnavailableResource e)
   <-> BIP39_WORDS = None \/ BIP39_WORDS = Some []) /\
  ((exists e, generatePassphrase fuel BIP39_WORDS wordCount separator src pos = Thrown e)
   <-> BIP39_WORDS = None \/ BIP39_WORDS = Some []) /\
  (BIP39_WORDS = None \/ BIP39_WORDS = Some [] ->
   forall s pos',
     generatePassphrase fuel BIP39_WORDS wordCount separator src pos <> Returned (s, pos')).
Proof.
  split_and!.
  - split.
    + by intros (e & [Hnone _]%generatePassphrase_Thrown & _).
    + intros Hnone. eexists. by split; [apply generatePassphrase_not_loaded|].
  - split.
    + by intros (e & [Hnone _]%generatePassphrase_Thrown).
    + intros Hnone. eexists. by apply generatePassphrase_not_loaded.
  - intros Hnone s pos'. by rewrite generatePassphrase_not_loaded.
Qed.

Lemma generatePassphrase_unavailable_witness :
  (Some ([] : list jsstring) = None \/ Some ([] : list jsstring) = Some []) /\
  forall s pos',
    generatePassphrase 2 (Some []) (JSnumber 6) (lit "-") (fun _ => 0) 0%nat
    <> Returned (s, pos').
Proof.
  split; [by right|].
  apply (proj2 (proj2 (generatePassphrase_unavailable 2 (Some []) (JSnumber 6)
    (lit "-") (fun _ => 0) 0%nat))).
  by right.
Defined.

(** [generatePassphrase(0, "-")] is six words long, not three:
    [parseInt(0, 10) || 6] is 6. *)
Lemma generatePassphrase_zero_count_counterexample :
  generatePassphrase 1 (Some [lit "able"; lit "baker"]) (JSnumber 0) (lit "-")
    (fun n => Z.of_nat n) 0%nat
  = Returned
      (join (lit "-")
         (Some <$> [lit "able"; lit "baker"; lit "able"; lit "baker";
                    lit "able"; lit "baker"]), 6%nat) /\
  word_count (JSnumber 0) = 6 /\
  word_count (JSnumber 0) <> Z.max 3 (Z.min 12 0).
Proof. split; [vm_compute; reflexivity|]. split; [reflexivity | discriminate]. Qed.

(** With a list of 2048 words every draw is accepted. *)
Lemma maxValid_2048 : maxValid 2048 = 2 ^ 32.
Proof. reflexivity. Qed.

(** C5, amended. With a word list loaded, [generatePassphrase] clamps
    [wordCount] to [3, 12], a [wordCount] that [parseInt] reads as NaN or
    as 0 being replaced by 6 first; the value read is the argument's own
    for an integer below 2^53 in absolute value. It cuts the separator to
    its first 10 code units, the empty separator being replaced by "-";
    and a returned passphrase is between 3 and 12 words of the list,
    exactly the clamped count for an argument in that range, those at the
    indices drawn, repeats allowed, joined in the order of the draws by
    the separator. It returns on every stream whose draws are all
    accepted, which is every stream when the list has 2048 words:
    [generatePassphrase(6, "-")] is then six words of the list joined by
    single hyphens. *)
Theorem generatePassphrase_composition :
  (forall v, 3 <= word_count v <= 12) /\
  (forall v, parseInt v = NaN \/ parseInt v = Int 0 -> word_count v = 6) /\
  (forall v n, parseInt v = Int n -> n <> 0 -> Z.abs n < 2 ^ 53 ->
     word_count v = Z.max 3 (Z.min 12 n)) /\
  (forall separator : jsstring,
     (length (separator_of separator) <= 10)%nat /\
     (separator = [] -> separator_of separator = lit "-") /\
     (separator <> [] -> separator_of separator = take 10 separator)) /\
  (forall fuel ws v separator src pos s pos',
     generatePassphrase fuel (Some ws) v separator src pos = Returned (s, pos') ->
     exists idxs words,
       draws fuel (Z.of_nat (length ws)) src pos idxs pos' /\
       Forall2 (fun i w => ws !! Z.to_nat i = Some w) idxs words /\
       3 <= Z.of_nat (length words) <= 12 /\
       (reads_back v -> Z.of_nat (length words) = word_count v) /\
       Forall (fun w => w ∈ ws) words /\
       s = join (separator_of separator) (Some <$> words)) /\
  (forall fuel ws v separator src pos,
     ws <> [] -> (0 < fuel)%nat ->
     (forall k : nat, src k mod 2 ^ 32 < maxValid (Z.of_nat (length ws))) ->
     exists s pos',
       generatePassphrase fuel (Some ws) v separator src pos = Returned (s, pos')) /\
  (forall fuel ws src pos,
     length ws = 2048%nat ->
     exists w1 w2 w3 w4 w5 w6 pos',
       Forall (fun w => w ∈ ws) [w1; w2; w3; w4; w5; w6] /\
       generatePassphrase (S fuel) (Some ws) (JSnumber 6) (lit "-") src pos
       = Returned (w1 ++ [45] ++ w2 ++ [45] ++ w3 ++ [45] ++ w4 ++ [45] ++ w5
                   ++ [45] ++ w6, pos')).
Proof.
  assert (forall fuel ws v separator src pos s pos',
     generatePassphrase fuel (Some ws) v separator src pos = Returned (s, pos') ->
     exists idxs words,
       draws fuel (Z.of_nat (length ws)) src pos idxs pos' /\
       Forall2 (fun i w => ws !! Z.to_nat i = Some w) idxs words /\
       Z.of_nat (length words) = word_count v /\
       Forall (fun w => w ∈ ws) words /\
       s = join (separator_of separator) (Some <$> words)) as Hreturned.
  { intros fuel ws v separator src pos s pos'
      (idxs & words & Hdraws & Hwords & Hlen & ->)%generatePassphrase_Returned.
    exists idxs, words. split_and!; [done | done | done | | done].
    apply Forall_forall. intros w Hw.
    apply list_elem_of_lookup in Hw as [j Hj].
    destruct (Forall2_lookup_r _ _ _ _ _ Hwords Hj) as (i & _ & Hi).
    by apply list_elem_of_lookup_2 in Hi. }
  split_and!.
  - apply word_count_bounds.
  - apply word_count_default.
  - intros v n Hparse Hn _. by apply word_count_clamp.
  - apply separator_of_spec.
  - intros fuel ws v separator src pos s pos' Hret.
    destruct (Hreturned _ _ _ _ _ _ _ _ Hret)
      as (idxs & words & Hdraws & Hwords & Hlen & Hin & Hs).
    pose proof (word_count_bounds v) as Hbounds.
    exists idxs, words. split_and!; [done | done | lia | lia | done | done | done].
  - apply generatePassphrase_returns.
  - intros fuel ws src pos Hsize.
    destruct (generatePassphrase_returns (S fuel) ws (JSnumber 6) (lit "-") src pos)
      as (s & pos' & Hret).
    + intros ->. discriminate.
    + lia.
    + intros k. rewrite Hsize. change (Z.of_nat 2048) with 2048.
      rewrite maxValid_2048. apply Z.mod_pos_bound. lia.
    + destruct (Hreturned _ _ _ _ _ _ _ _ Hret)
        as (idxs & words & _ & _ & Hlen & Hin & ->).
      change (word_count (JSnumber 6)) with 6 in Hlen.
      destruct words as [|w1 [|w2 [|w3 [|w4 [|w5 [|w6 [|w7 words]]]]]]];
        simpl length in Hlen; try lia.
      by exists w1, w2, w3, w4, w5, w6, pos'.
Qed.

Lemma generatePassphrase_composition_witness :
  reads_back (JSnumber 4) /\
  generatePassphrase 1 (Some [lit "able"; lit "baker"]) (JSnumber 4)
    (lit "+") (fun n => Z.of_nat n) 3%nat
  = Returned (lit "baker+able+baker+able", 7%nat) /\
  exists words : list jsstring,
    Z.of_nat (length words) = word_count (JSnumber 4) /\
    Forall (fun w => w ∈ [lit "able"; lit "baker"]) words /\
    lit "baker+able+baker+able" = join (separator_of (lit "+")) (Some <$> words).
Proof.
  assert (reads_back (JSnumber 4)) as Hreads by (vm_compute; reflexivity).
  assert (generatePassphrase 1 (Some [lit "able"; lit "baker"]) (JSnumber 4)
            (lit "+") (fun n => Z.of_nat n) 3%nat
          = Returned (lit "baker+able+baker+able", 7%nat)) as Hrun
    by (vm_compute; reflexivity).
  destruct (proj1 (proj2 (proj2 (proj2 (proj2 generatePassphrase_composition))))
              _ _ _ _ _ _ _ _ Hrun)
    as (idxs & words & _ & _ & _ & Hlen & Hin & Hs).
  split; [exact Hreads|]. split; [exact Hrun|].
  exists words. split; [exact (Hlen Hreads)|]. split; [exact Hin | exact Hs].
Defined.

(** ** [calculateEntropy] *)

Lemma ln_2_neq_0 : ln 2 <> 0%R.
Proof. pose proof ln_lt_2. lra. Qed.


(** With an empty array loaded, [Math.log2(0)] is -Infinity and so is the
    product with a positive count. *)
Lemma calculateEntropy_empty_list wordCount :
  0 < wordCount -> calculateEntropy (Some []) wordCount = NegInfinity.
Proof.
  intros Hpos. simpl. destruct (Z.eqb_spec wordCount 0); [lia|].
  by destruct (Z.ltb_spec wordCount 0); [lia|].
Qed.



(** * Further properties of the core *)

(** ** Which draw [secureRandom] returns *)

(** The loop returns the draw at offset [k] when it is the first one below
    the limit and the fuel reaches it. *)
Lemma draw_loop_first fuel limit src pos (k : nat) :
  (k < fuel)%nat ->
  (forall j : nat, (j < k)%nat -> limit <= draw src (pos + j)) ->
  draw src (pos + k) < limit ->
  draw_loop fuel limit src pos = Returned (draw src (pos + k), S (pos + k)).
Proof.
  unfold draw. revert pos k. induction fuel as [|fuel IH]; intros pos k Hk Hrej Hacc; [lia|].
  simpl. unfold bind, getRandomValues.
  destruct k as [|k].
  - rewrite Nat.add_0_r in *.
    by destruct (Z.geb_spec (src pos mod 2 ^ 32) limit); [lia|].
  - pose proof (Hrej 0%nat ltac:(lia)) as Hfirst. rewrite Nat.add_0_r in Hfirst.
    destruct (Z.geb_spec (src pos mod 2 ^ 32) limit); [|lia].
    replace (pos + S k)%nat with (S pos + k)%nat in * by lia.
    apply IH; [lia | | done].
    intros j Hj. specialize (Hrej (S j) ltac:(lia)).
    by replace (pos + S j)%nat with (S pos + j)%nat in Hrej by lia.
Qed.

(** X1. For [1 < max], [secureRandom] returns [v] and leaves the cursor at
    [pos'] exactly when some draw within the fuel is below the threshold,
    all the draws before it are rejected, [v] is that draw modulo [max]
    and [pos'] is just after it: a rejected draw never produces a value
    and no draw is skipped. *)
Theorem secureRandom_first_accepted (fuel : nat) (max : Z) (src : nat -> Z)
  (pos : nat) (v : Z) (pos' : nat) :
  1 < max ->
  secureRandom fuel max src pos = Returned (v, pos') <->
  exists k : nat,
    (k < fuel)%nat /\ pos' = S (pos + k) /\
    (forall j : nat, (j < k)%nat -> maxValid max <= draw src (pos + j)) /\
    draw src (pos + k) < maxValid max /\
    v = draw src (pos + k) mod max.
Proof.
  intros Hmax. rewrite secureRandom_loop by done. split.
  - intros (value & pos1 & Hloop & [= <- <-])%bind_Returned.
    apply draw_loop_Returned in Hloop as (k & Hk & -> & -> & Hacc & Hrej).
    exists k. pose proof (Z.mod_pos_bound (src (pos + k)%nat) (2 ^ 32)).
    unfold draw. rewrite Z.rem_mod_nonneg by lia. by split_and!.
  - intros (k & Hk & -> & Hrej & Hacc & ->).
    unfold bind. rewrite (draw_loop_first fuel _ src pos k) by done.
    unfold ret, draw. pose proof (Z.mod_pos_bound (src (pos + k)%nat) (2 ^ 32)).
    by rewrite Z.rem_mod_nonneg by lia.
Qed.

Lemma secureRandom_first_accepted_witness :
  1 < 6 /\
  secureRandom 3 6 (fun n => 4294967295 - 10 * Z.of_nat n) 0%nat = Returned (5, 2%nat).
Proof.
  split; [lia|].
  apply (secureRandom_first_accepted 3 6 (fun n => 4294967295 - 10 * Z.of_nat n)
           0%nat 5 2%nat); [lia|].
  exists 1%nat. split_and!; [lia | reflexivity | | vm_compute; reflexivity | reflexivity].
  intros [|j] Hj; [vm_compute; discriminate | lia].
Defined.

(** ** How much is rejected *)

(** X2. For [0 < max <= 2^32] the rejected values are the [2^32 mod max]
    largest 32-bit values: fewer than [max] of them and fewer than half of
    all, so more than half of the draws are accepted. For [1 < max] a
    32-bit draw is rejected exactly when it is at least the threshold. *)
Theorem maxValid_rejected (max : Z) :
  0 < max <= 2 ^ 32 ->
  2 ^ 32 - maxValid max = 2 ^ 32 mod max /\
  2 ^ 32 - maxValid max < max /\
  2 ^ 31 < maxValid max <= 2 ^ 32 /\
  (1 < max ->
   forall v, 0 <= v < 2 ^ 32 ->
     (output_of_draw max v = None <-> maxValid max <= v)).
Proof.
  intros [Hpos Hle]. unfold maxValid.
  pose proof (Z.div_mod (2 ^ 32) max ltac:(lia)) as Hdiv.
  pose proof (Z.mod_pos_bound (2 ^ 32) max Hpos) as Hmod.
  assert (1 <= 2 ^ 32 / max) as Hq by (apply Z.div_le_lower_bound; lia).
  split_and!; try nia.
  intros Hmax v Hv. rewrite output_of_draw_spec by done. unfold maxValid.
  destruct (Z.ltb_spec v (2 ^ 32 / max * max)); split; (done || lia).
Qed.

Lemma maxValid_rejected_witness :
  0 < 10 <= 2 ^ 32 /\ 2 ^ 32 - maxValid 10 = 6 /\ output_of_draw 10 4294967290 = None.
Proof.
  split; [lia|].
  destruct (maxValid_rejected 10 ltac:(lia)) as (Hrej & _ & _ & Hdraw).
  split; [exact Hrej|].
  apply Hdraw; [lia | lia | vm_compute; discriminate].
Defined.

(** ** Sizes that divide 2^32 *)

(** X3. When [max > 1] divides 2^32 (a power of two up to 2^32, such as
    2048), [secureRandom] rejects nothing: with any fuel it reads exactly
    one draw and returns it modulo [max]. *)
Theorem secureRandom_single_draw (fuel : nat) (max : Z) (src : nat -> Z) (pos : nat) :
  1 < max -> 2 ^ 32 mod max = 0 ->
  maxValid max = 2 ^ 32 /\
  secureRandom (S fuel) max src pos = Returned (draw src pos mod max, S pos).
Proof.
  intros Hmax Hdiv. split; [|by apply secureRandom_power_of_two].
  unfold maxValid. pose proof (Z.div_mod (2 ^ 32) max). lia.
Qed.

Lemma secureRandom_single_draw_witness :
  1 < 2048 /\ 2 ^ 32 mod 2048 = 0 /\
  secureRandom 1 2048 (fun _ => 5000) 7%nat = Returned (904, 8%nat).
Proof.
  split; [lia|]. split; [reflexivity|].
  apply (proj2 (secureRandom_single_draw 0 2048 (fun _ => 5000) 7%nat
           ltac:(lia) eq_refl)).
Defined.

(** ** The character pool *)

Lemma build_pool_NoDup (o : options) : NoDup (build_pool o).
Proof.
  destruct o as [[] [] [] []]; apply (bool_decide_unpack _); vm_compute; exact I.
Qed.

Lemma length_build_pool (o : options) :
  Z.of_nat (length (build_pool o))
  = 26 * Z.b2z (lower o) + 26 * Z.b2z (upper o)
    + 10 * Z.b2z (numbers o) + 26 * Z.b2z (symbols o).
Proof. by destruct o as [[] [] [] []]. Qed.

Lemma length_build_pool_bounds (o : options) :
  ~ no_set_selected o -> 10 <= Z.of_nat (length (build_pool o)) <= 88.
Proof.
  intros Hsome. rewrite length_build_pool.
  destruct o as [[] [] [] []]; simpl in *; try lia.
  by destruct Hsome.
Qed.

(** X4. Whatever the options, the pool lists no character twice, so each
    character of the pool is reached by exactly one index; its size is 26
    for each of [lower], [upper] and [symbols] and 10 for [numbers], hence
    between 10 and 88 as soon as one set is selected. *)
Theorem build_pool_shape (o : options) :
  NoDup (build_pool o) /\
  Z.of_nat (length (build_pool o))
  = 26 * Z.b2z (lower o) + 26 * Z.b2z (upper o)
    + 10 * Z.b2z (numbers o) + 26 * Z.b2z (symbols o) /\
  (~ no_set_selected o -> 10 <= Z.of_nat (length (build_pool o)) <= 88).
Proof.
  split_and!;
    [apply build_pool_NoDup | apply length_build_pool | apply length_build_pool_bounds].
Qed.

Lemma build_pool_shape_witness :
  ~ no_set_selected {| lower := false; upper := false; numbers := true; symbols := false |} /\
  10 <= Z.of_nat (length (build_pool
          {| lower := false; upper := false; numbers := true; symbols := false |})) <= 88.
Proof.
  assert (~ no_set_selected
            {| lower := false; upper := false; numbers := true; symbols := false |})
    as Hsome by (intros (_ & _ & Habs & _); discriminate).
  split; [exact Hsome|].
  apply (proj2 (proj2 (build_pool_shape _)) Hsome).
Defined.

(** ** The draws behind a password *)

Lemma draws_advance fuel max src pos idxs pos' :
  1 < max -> draws fuel max src pos idxs pos' -> (pos + length idxs <= pos')%nat.
Proof.
  intros Hmax. induction 1 as [|pos i pos1 idxs pos' Hdraw _ IH]; simpl; [lia|].
  apply secureRandom_Returned in Hdraw as (k & _ & -> & _); [lia | done].
Qed.

(** X5. A returned password is read off the pool at the indices that the
    successive calls of [secureRandom(pool.length)] return, in that order,
    one call per character; each call reads at least one draw, so the
    cursor of the entropy source advances by at least the length of the
    password. *)
Theorem generatePassword_draw_order (fuel : nat) (length_arg : jsval) (o : options)
  (src : nat -> Z) (pos : nat) (s : jsstring) (pos' : nat) :
  generatePassword fuel length_arg o src pos = Returned (s, pos') ->
  exists idxs : list Z,
    draws fuel (Z.of_nat (length (build_pool o))) src pos idxs pos' /\
    Forall2 (fun i c => build_pool o !! Z.to_nat i = Some c) idxs s /\
    (pos + length s <= pos')%nat.
Proof.
  intros Hret.
  assert (~ no_set_selected o) as Hsome.
  { intros Hnone. by rewrite generatePassword_no_pool in Hret. }
  apply generatePassword_Returned in Hret as (idxs & Hdraws & Hchars & _).
  exists idxs. split_and!; [done | done |].
  rewrite <- (Forall2_length _ _ _ Hchars).
  apply (draws_advance fuel (Z.of_nat (length (build_pool o))) src); [|done].
  pose proof (length_build_pool_bounds o Hsome). lia.
Qed.

Lemma generatePassword_draw_order_witness :
  generatePassword 1 (JSnumber 6)
    {| lower := false; upper := false; numbers := true; symbols := false |}
    (fun n => Z.of_nat n) 0%nat = Returned (lit "012345", 6%nat) /\
  exists idxs : list Z,
    Forall2 (fun i c => lit "0123456789" !! Z.to_nat i = Some c) idxs (lit "012345").
Proof.
  split; [vm_compute; reflexivity|].
  destruct (generatePassword_draw_order 1 (JSnumber 6)
              {| lower := false; upper := false; numbers := true; symbols := false |}
              (fun n => Z.of_nat n) 0%nat (lit "012345") 6%nat)
    as (idxs & _ & Hchars & _); [vm_compute; reflexivity|].
  by exists idxs.
Defined.

(** ** What a score requires *)

(** The score of a non-empty string, with the classes counted. *)
Lemma calculateStrength_nonempty (p : jsstring) :
  p <> [] ->
  calculateStrength p
  = Z.min (Z.max 0 (Z.min (Z.of_nat (length p) * 4) 40 + classes p * 15
                    - (Z.of_nat (length p) - distinct_characters p) * 2)) 100.
Proof.
  intros Hp. destruct p as [|c p]; [done|].
  unfold calculateStrength, classes.
  rewrite varietyCount_sum, uniqueChars_distinct.
  by change (length (c :: p) =? 0)%nat with false.
Qed.

Lemma classes_bounds (p : jsstring) : 0 <= classes p <= 4.
Proof.
  unfold classes.
  destruct (test in_a_z p), (test in_A_Z p), (test in_0_9 p), (test not_alnum p);
    simpl; lia.
Qed.

Lemma calculateStrength_le_classes (p : jsstring) :
  calculateStrength p <= Z.min (Z.of_nat (length p) * 4) 40 + classes p * 15.
Proof.
  destruct p as [|c p]; [by vm_compute|].
  rewrite calculateStrength_nonempty by done.
  pose proof (distinct_characters_le (c :: p)).
  pose proof (classes_bounds (c :: p)). lia.
Qed.

Lemma getStrengthDescription_very_strong score :
  getStrengthDescription score = Label.very_strong -> 90 <= score.
Proof.
  unfold getStrengthDescription.
  destruct (Z.ltb_spec score 40), (Z.ltb_spec score 70), (Z.ltb_spec score 90);
    try lia; intros Heq; vm_compute in Heq; discriminate.
Qed.

Lemma getStrengthDescription_not_weak score :
  getStrengthDescription score <> Label.weak -> 40 <= score.
Proof.
  unfold getStrengthDescription. destruct (Z.ltb_spec score 40); [done | lia].
Qed.

(** X7. The score never exceeds what length and variety earn,
    [min(4 * length, 40) + 15 * classes]. So a score of 90 or more, and
    with it the label "very strong", needs all four classes (lowercase,
    uppercase, digit, other) and at least 8 code units; a score of 70 or
    more needs two classes; and a string of a single class scores at most
    55, which is labelled "medium" at best. *)
Theorem calculateStrength_requirements (p : jsstring) :
  calculateStrength p <= Z.min (Z.of_nat (length p) * 4) 40 + classes p * 15 /\
  (90 <= calculateStrength p -> classes p = 4 /\ (8 <= length p)%nat) /\
  (getStrengthDescription (calculateStrength p) = Label.very_strong ->
   test in_a_z p = true /\ test in_A_Z p = true /\ test in_0_9 p = true /\
   test not_alnum p = true /\ (8 <= length p)%nat) /\
  (70 <= calculateStrength p -> 2 <= classes p) /\
  (classes p <= 1 -> calculateStrength p <= 55).
Proof.
  pose proof (calculateStrength_le_classes p) as Hle.
  pose proof (classes_bounds p) as Hclasses.
  split_and!; [done | lia | | lia | lia].
  intros Hscore%getStrengthDescription_very_strong.
  assert (classes p = 4 /\ (8 <= length p)%nat) as [Hall Hlen] by lia.
  unfold classes in Hall.
  destruct (test in_a_z p), (test in_A_Z p), (test in_0_9 p), (test not_alnum p);
    simpl in Hall; by try lia.
Qed.

Lemma calculateStrength_requirements_witness :
  90 <= calculateStrength (lit "aB3!xyzw") /\
  classes (lit "aB3!xyzw") = 4 /\ (8 <= length (lit "aB3!xyzw"))%nat.
Proof.
  assert (90 <= calculateStrength (lit "aB3!xyzw")) as Hscore
    by (vm_compute; discriminate).
  split; [exact Hscore|].
  apply (proj1 (proj2 (calculateStrength_requirements (lit "aB3!xyzw"))) Hscore).
Defined.

(** ** Passwords of the generator, scored *)

(** Every character of a set is of the class of that set only. *)
Lemma SETS_classes :
  Forall (fun c => in_a_z c = true /\ in_A_Z c = false /\ in_0_9 c = false
                   /\ not_alnum c = false) SETS.lower /\
  Forall (fun c => in_a_z c = false /\ in_A_Z c = true /\ in_0_9 c = false
                   /\ not_alnum c = false) SETS.upper /\
  Forall (fun c => in_a_z c = false /\ in_A_Z c = false /\ in_0_9 c = true
                   /\ not_alnum c = false) SETS.numbers /\
  Forall (fun c => in_a_z c = false /\ in_A_Z c = false /\ in_0_9 c = false
                   /\ not_alnum c = true) SETS.symbols.
Proof. split_and!; apply (bool_decide_unpack _); vm_compute; exact I. Qed.

(** A class found in a string of enabled characters is an enabled one. *)
Lemma classes_of_enabled (o : options) (s : jsstring) :
  Forall (in_enabled_sets o) s ->
  (test in_a_z s = true -> lower o = true) /\
  (test in_A_Z s = true -> upper o = true) /\
  (test in_0_9 s = true -> numbers o = true) /\
  (test not_alnum s = true -> symbols o = true).
Proof.
  intros Hs.
  destruct SETS_classes as (Hlower & Hupper & Hnumbers & Hsymbols).
  rewrite Forall_forall in Hs, Hlower, Hupper, Hnumbers, Hsymbols.
  unfold test.
  split_and!; intros (c & Hc%list_elem_of_In & Hclass)%existsb_exists;
    destruct (Hs c Hc) as [[Hon Hin]|[[Hon Hin]|[[Hon Hin]|[Hon Hin]]]];
    first [ done
          | apply Hlower in Hin as (? & ? & ? & ?); congruence
          | apply Hupper in Hin as (? & ? & ? & ?); congruence
          | apply Hnumbers in Hin as (? & ? & ? & ?); congruence
          | apply Hsymbols in Hin as (? & ? & ? & ?); congruence ].
Qed.

Lemma generatePassword_enabled fuel v o src pos s pos' :
  generatePassword fuel v o src pos = Returned (s, pos') ->
  Forall (in_enabled_sets o) s.
Proof.
  intros (idxs & _ & Hchars & _)%generatePassword_Returned.
  apply Forall_forall. intros c [j Hj]%list_elem_of_lookup.
  destruct (Forall2_lookup_r _ _ _ _ _ Hchars Hj) as (i & _ & Hi).
  apply elem_of_build_pool. by apply list_elem_of_lookup_2 in Hi.
Qed.

(** X6. A password that [generatePassword] returns shows no more character
    classes than sets were enabled, so [calculateStrength] gives it at
    most [40 + 15 * enabled sets]: at most 55 with one set, and it is
    rated "very strong" only when all four sets are enabled. *)
Theorem generatePassword_strength (fuel : nat) (length_arg : jsval) (o : options)
  (src : nat -> Z) (pos : nat) (s : jsstring) (pos' : nat) :
  generatePassword fuel length_arg o src pos = Returned (s, pos') ->
  classes s <= enabled_sets o /\
  calculateStrength s <= 40 + 15 * enabled_sets o /\
  (getStrengthDescription (calculateStrength s) = Label.very_strong ->
   enabled_sets o = 4).
Proof.
  intros Hs%generatePassword_enabled.
  destruct (classes_of_enabled o s Hs) as (Hlower & Hupper & Hnumbers & Hsymbols).
  assert (classes s <= enabled_sets o) as Hclasses.
  { unfold classes, enabled_sets.
    destruct (test in_a_z s), (test in_A_Z s), (test in_0_9 s), (test not_alnum s);
      rewrite ?Hlower, ?Hupper, ?Hnumbers, ?Hsymbols by done; simpl;
      destruct (lower o), (upper o), (numbers o), (symbols o); simpl; lia. }
  pose proof (calculateStrength_le_classes s) as Hle.
  split_and!; [done | lia |].
  intros Hscore%getStrengthDescription_very_strong.
  assert (enabled_sets o <= 4); [|lia].
  unfold enabled_sets.
  destruct (lower o), (upper o), (numbers o), (symbols o); simpl; lia.
Qed.

Lemma generatePassword_strength_witness :
  generatePassword 1 (JSnumber 6)
    {| lower := false; upper := false; numbers := true; symbols := false |}
    (fun n => Z.of_nat n) 0%nat = Returned (lit "012345", 6%nat) /\
  calculateStrength (lit "012345") <= 40 + 15 * 1.
Proof.
  split; [vm_compute; reflexivity|].
  apply (proj1 (proj2 (generatePassword_strength 1 (JSnumber 6)
    {| lower := false; upper := false; numbers := true; symbols := false |}
    (fun n => Z.of_nat n) 0%nat (lit "012345") 6%nat ltac:(vm_compute; reflexivity)))).
Defined.

(** ** Adding a new character *)

(** Without a high surrogate in front, the iterator yields the code units
    one by one. *)
Lemma iterate_app_unit (p : jsstring) (c : Z) :
  Forall (fun u => is_high_surrogate u = false) p ->
  iterate (p ++ [c]) = ((fun u => [u]) <$> p) ++ [[c]].
Proof.
  induction 1 as [|u p Hu _ IH]; [done|].
  rewrite fmap_cons, <- !app_comm_cons, <- IH.
  destruct (p ++ [c]) as [|d r] eqn:Happ; [by destruct p|].
  simpl. by rewrite Hu.
Qed.

Lemma iterate_units (p : jsstring) :
  Forall (fun u => is_high_surrogate u = false) p ->
  iterate p = (fun u => [u]) <$> p.
Proof.
  induction 1 as [|u p Hu _ IH]; [done|].
  rewrite fmap_cons, <- IH.
  destruct p as [|d r]; [done|]. simpl. by rewrite Hu.
Qed.

(** A code unit that the string does not contain is one more distinct
    character. *)
Lemma distinct_characters_app_fresh (p : jsstring) (c : Z) :
  Forall (fun u => is_high_surrogate u = false) p ->
  c ∉ p ->
  distinct_characters (p ++ [c]) = distinct_characters p + 1.
Proof.
  intros Hp Hc. rewrite <- !uniqueChars_distinct.
  rewrite iterate_app_unit, iterate_units by done.
  rewrite list_to_set_app_L, size_union.
  - rewrite list_to_set_singleton, size_singleton. lia.
  - rewrite list_to_set_singleton.
    apply disjoint_singleton_r. rewrite elem_of_list_to_set.
    intros (u & [= ->] & Hu)%list_elem_of_fmap. done.
Qed.

Lemma test_app (class : Z -> bool) (p q : jsstring) :
  test class (p ++ q) = test class p || test class q.
Proof. apply existsb_app. Qed.

Lemma classes_app_le (p q : jsstring) : classes p <= classes (p ++ q).
Proof.
  unfold classes. rewrite !test_app.
  destruct (test in_a_z p), (test in_A_Z p), (test in_0_9 p), (test not_alnum p),
    (test in_a_z q), (test in_A_Z q), (test in_0_9 q), (test not_alnum q);
    simpl; lia.
Qed.

(** X8. Appending a code unit that the password does not contain yet never
    lowers the score (the password being free of high surrogates, so that
    the new unit is a character of its own): the length term and the
    variety term can only grow and the repetition penalty stays. *)
Theorem calculateStrength_append_fresh (p : jsstring) (c : Z) :
  Forall (fun u => is_high_surrogate u = false) p ->
  c ∉ p ->
  calculateStrength p <= calculateStrength (p ++ [c]).
Proof.
  intros Hp Hc.
  assert (p ++ [c] <> []) as Hne by (by destruct p).
  rewrite (calculateStrength_nonempty (p ++ [c])) by done.
  destruct p as [|u p]; [vm_compute calculateStrength at 1; lia|].
  rewrite calculateStrength_nonempty by done.
  rewrite distinct_characters_app_fresh by done.
  pose proof (classes_app_le (u :: p) [c]).
  rewrite length_app. simpl length. lia.
Qed.

Lemma calculateStrength_append_fresh_witness :
  Forall (fun u => is_high_surrogate u = false) (lit "abc") /\
  (100 ∉ lit "abc") /\
  calculateStrength (lit "abc") <= calculateStrength (lit "abc" ++ [100]).
Proof.
  assert (Forall (fun u => is_high_surrogate u = false) (lit "abc")) as Hp
    by (apply (bool_decide_unpack _); vm_compute; exact I).
  assert (100 ∉ lit "abc") as Hc
    by (apply (bool_decide_unpack _); vm_compute; exact I).
  split; [exact Hp|]. split; [exact Hc|].
  apply (calculateStrength_append_fresh (lit "abc") 100 Hp Hc).
Defined.

(** ** Word lists of special sizes *)







(** ** Entropy of a list of 2^k words *)

Lemma log2_pow2 (k : nat) : log2 (INR (2 ^ k)) = INR k.
Proof.
  unfold log2. rewrite pow_INR. change (INR 2) with 2%R.
  rewrite ln_pow by lra. pose proof ln_2_neq_0. by field.
Qed.

(** The logarithm of [2^k] is [k], so the product with the count is an
    integer. *)
Lemma times_log2_pow2 (k : nat) (n : Z) :
  times (Math_log2 (2 ^ k)) n = Finite (IZR (Z.of_nat k * n)).
Proof.
  pose proof (Nat.pow_nonzero 2 k ltac:(lia)) as Hpow.
  unfold Math_log2. destruct (2 ^ k)%nat as [|m] eqn:Hm; [done|].
  rewrite <- Hm, log2_pow2. unfold times. f_equal.
  by rewrite mult_IZR, <- INR_IZR_INZ.
Qed.

(** X12. With a list of [2^k] words, [calculateEntropy(wordCount)] is
    [k * wordCount], [k] bits per word, whatever the sign of the count,
    for a count and a product below 2^53 in absolute value, where the
    product of the two doubles is exact. *)
Theorem calculateEntropy_power_of_two (ws : list jsstring) (k : nat) (n : Z) :
  length ws = (2 ^ k)%nat ->
  Z.abs n < 2 ^ 53 ->
  Z.abs (Z.of_nat k * n) < 2 ^ 53 ->
  calculateEntropy (Some ws) n = Finite (IZR (Z.of_nat k * n)).
Proof.
  intros Hsize _ _. unfold calculateEntropy. rewrite Hsize.
  apply times_log2_pow2.
Qed.

Lemma calculateEntropy_power_of_two_witness :
  length (replicate 8 (lit "word")) = (2 ^ 3)%nat /\
  Z.abs 4 < 2 ^ 53 /\ Z.abs (Z.of_nat 3 * 4) < 2 ^ 53 /\
  calculateEntropy (Some (replicate 8 (lit "word"))) 4 = Finite 12.
Proof.
  split; [reflexivity|]. split; [reflexivity|]. split; [reflexivity|].
  apply (calculateEntropy_power_of_two (replicate 8 (lit "word")) 3 4);
    reflexivity.
Defined.

(** * The handlers *)

(** The handlers default the raw field before the generators do; the
    second defaulting changes nothing. *)
Lemma or_default_nonzero (p : jsint) (d : Z) : d <> 0 -> or_default p d <> 0.
Proof.
  intros Hd. destruct p as [|n]; simpl; [done|].
  by destruct (Z.eqb_spec n 0).
Qed.

Lemma or_default_again (p : jsint) (d : Z) :
  d <> 0 -> or_default (Int (or_default p d)) d = or_default p d.
Proof.
  intros Hd. pose proof (or_default_nonzero p d Hd) as Hne.
  simpl. by destruct (Z.eqb_spec (or_default p d) 0).
Qed.

Lemma password_length_again (value : jsstring) :
  password_length (JSnumber (or_default (parseInt (JSstring value)) 16))
  = password_length (JSstring value).
Proof.
  unfold password_length.
  change (parseInt (JSnumber ?n)) with (Int n). by rewrite or_default_again.
Qed.

Lemma word_count_again (value : jsstring) :
  word_count (JSnumber (or_default (parseInt (JSstring value)) 6))
  = word_count (JSstring value).
Proof.
  unfold word_count.
  change (parseInt (JSnumber ?n)) with (Int n). by rewrite or_default_again.
Qed.

Lemma generatePassword_again fuel (value : jsstring) o :
  generatePassword fuel (JSnumber (or_default (parseInt (JSstring value)) 16)) o
  = generatePassword fuel (JSstring value) o.
Proof. unfold generatePassword. by rewrite password_length_again. Qed.

Lemma separator_of_again (value : jsstring) :
  separator_of (separator_or_default value) = separator_of value.
Proof. by destruct value. Qed.

Lemma generatePassphrase_again fuel W (value sep : jsstring) :
  generatePassphrase fuel W (JSnumber (or_default (parseInt (JSstring value)) 6))
    (separator_or_default sep)
  = generatePassphrase fuel W (JSstring value) sep.
Proof.
  unfold generatePassphrase. by rewrite word_count_again, separator_of_again.
Qed.

Lemma calculateStrength_bounds (p : jsstring) : 0 <= calculateStrength p <= 100.
Proof. unfold calculateStrength. destruct (length p =? 0)%nat; lia. Qed.

Lemma no_set_selected_negb (o : options) :
  negb (lower o) && negb (upper o) && negb (numbers o) && negb (symbols o) = true
  <-> no_set_selected o.
Proof.
  unfold no_set_selected.
  destruct (lower o), (upper o), (numbers o), (symbols o); simpl; intuition discriminate.
Qed.

(** The options that [handleGeneratePassword] reads from the checkboxes. *)
Lemma handleGeneratePassword_cases fuel d src pos :
  let o := {| lower := pLower d; upper := pUpper d;
              numbers := pNumbers d; symbols := pSymbols d |} in
  (no_set_selected o /\
   handleGeneratePassword fuel d src pos
   = Returned (set_pwdResult (Message "Выберите хотя бы один набор символов") d, pos))
  \/
  (~ no_set_selected o /\
   handleGeneratePassword fuel d src pos
   = match generatePassword fuel (JSstring (pwdLength d)) o src pos with
     | Returned (s, pos') =>
         Returned (set_pwdStrength (calculateStrength s) (set_pwdResult (Text s) d), pos')
     | Thrown e => Returned (set_pwdResult (Message "Ошибка генерации пароля") d, pos)
     | OutOfFuel => OutOfFuel
     end).
Proof.
  intros o. unfold handleGeneratePassword, try_catch. fold o.
  destruct (negb (lower o) && negb (upper o) && negb (numbers o) && negb (symbols o))
    eqn:Hnone.
  - left. by apply no_set_selected_negb in Hnone.
  - right. split.
    + intros Habs%no_set_selected_negb. congruence.
    + unfold bind. rewrite generatePassword_again.
      by destruct (generatePassword fuel (JSstring (pwdLength d)) o src pos)
        as [[s pos']|e|].
Qed.

(** X13. [handleGeneratePassword] never lets an error through and never
    shows its own error message. With no box checked it shows the request
    to select a set, reads no entropy and leaves the strength bar alone.
    Otherwise, for a length field that reads back, it shows exactly the
    password that [generatePassword] returns for the raw field value,
    which has the clamped length, and sets the bar to its score, between
    0 and 100; nothing else on the page changes. *)
Theorem handleGeneratePassword_result (fuel : nat) (d : page)
  (src : nat -> Z) (pos : nat) :
  let o := {| lower := pLower d; upper := pUpper d;
              numbers := pNumbers d; symbols := pSymbols d |} in
  (no_set_selected o ->
   handleGeneratePassword fuel d src pos
   = Returned (set_pwdResult (Message "Выберите хотя бы один набор символов") d, pos)) /\
  (forall e, handleGeneratePassword fuel d src pos <> Thrown e) /\
  (forall d' pos',
     handleGeneratePassword fuel d src pos = Returned (d', pos') ->
     pwdResult d' <> Message "Ошибка генерации пароля") /\
  (~ no_set_selected o -> reads_back (JSstring (pwdLength d)) ->
   forall d' pos',
     handleGeneratePassword fuel d src pos = Returned (d', pos') ->
     exists s,
       generatePassword fuel (JSstring (pwdLength d)) o src pos = Returned (s, pos') /\
       d' = set_pwdStrength (calculateStrength s) (set_pwdResult (Text s) d) /\
       Z.of_nat (length s) = password_length (JSstring (pwdLength d)) /\
       0 <= pwdStrength d' <= 100).
Proof.
  intros o.
  destruct (handleGeneratePassword_cases fuel d src pos) as [[Hnone ->]|[Hsome ->]];
    fold o in Hnone || fold o in Hsome; fold o.
  - split_and!; [done | done | | done].
    intros d' pos' [= <- <-]. simpl. by intros [= Heq].
  - destruct (generatePassword fuel (JSstring (pwdLength d)) o src pos)
      as [[s pos1]|e|] eqn:Hgen.
    + split_and!; [done | done | by intros d' pos' [= <- <-] | ].
      intros _ _ d' pos' [= <- <-]. exists s. split_and!; [done | done | | | ].
      * by apply generatePassword_Returned in Hgen as (idxs & _ & _ & Hlen).
      * apply calculateStrength_bounds.
      * apply calculateStrength_bounds.
    + by apply generatePassword_Thrown in Hgen as [Hnone _].
    + by split_and!.
Qed.

Lemma handleGeneratePassword_result_witness :
  reads_back (JSstring (pwdLength example_password_page)) /\
  exists s,
    handleGeneratePassword 1 example_password_page (fun n => Z.of_nat n) 0%nat
    = Returned (set_pwdStrength (calculateStrength s)
                  (set_pwdResult (Text s) example_password_page), 6%nat)
    /\ Z.of_nat (length s) = 6.
Proof.
  assert (reads_back (JSstring (pwdLength example_password_page))) as Hreads
    by (vm_compute; reflexivity).
  split; [exact Hreads|].
  assert (~ no_set_selected
            {| lower := pLower example_password_page;
               upper := pUpper example_password_page;
               numbers := pNumbers example_password_page;
               symbols := pSymbols example_password_page |})
    as Hsome by (intros (_ & _ & Habs & _); discriminate).
  destruct (proj2 (proj2 (proj2 (handleGeneratePassword_result 1 example_password_page
              (fun n => Z.of_nat n) 0%nat))) Hsome Hreads
              (set_pwdStrength (calculateStrength (lit "012345"))
                 (set_pwdResult (Text (lit "012345")) example_password_page)) 6%nat)
    as (s & _ & Hd & Hlen & _); [vm_compute; reflexivity|].
  exists s. split; [|exact Hlen].
  rewrite <- Hd. vm_compute. reflexivity.
Defined.

Lemma getStrengthDescription_not_error score :
  getStrengthDescription score <> "Ошибка проверки пароля"%string.
Proof.
  unfold getStrengthDescription.
  destruct (score <? 40), (score <? 70), (score <? 90);
    intros Heq; vm_compute in Heq; discriminate.
Qed.

(** X14. [handleCheckPassword] always returns, reads no entropy and never
    shows its error message. For an empty field it clears the label and
    sets the bar to 0; otherwise the bar is the score of the field and the
    label is the description of that very score, so the label "very
    strong" appears only for a field with all four classes and at least 8
    code units. It changes nothing else, and running it again changes
    nothing. *)
Theorem handleCheckPassword_result (d : page) (src : nat -> Z) (pos : nat) :
  exists d',
    handleCheckPassword d src pos = Returned (d', pos) /\
    (checkInput d = [] -> d' = set_checkStrength 0 (set_checkResult (Text []) d)) /\
    (checkInput d <> [] ->
     d' = set_checkStrength (calculateStrength (checkInput d))
            (set_checkResult
               (Message (getStrengthDescription (calculateStrength (checkInput d)))) d)) /\
    0 <= checkStrength d' <= 100 /\
    checkResult d' <> Message "Ошибка проверки пароля" /\
    (checkResult d' = Message Label.very_strong ->
     classes (checkInput d) = 4 /\ (8 <= length (checkInput d))%nat) /\
    handleCheckPassword d' src pos = Returned (d', pos).
Proof.
  unfold handleCheckPassword, try_catch.
  destruct (checkInput d) as [|c p] eqn:Hinput.
  - eexists. split; [reflexivity|]. simpl. rewrite Hinput.
    split_and!; [done | done | lia | lia | done | done | done].
  - eexists. split; [reflexivity|]. simpl. rewrite Hinput.
    pose proof (calculateStrength_bounds (c :: p)) as Hbounds.
    split_and!; [done | done | lia | lia | | | done].
    + intros [= Heq]. by apply getStrengthDescription_not_error in Heq.
    + intros [= Hscore%getStrengthDescription_very_strong].
      pose proof (calculateStrength_le_classes (c :: p)) as Hle.
      pose proof (classes_bounds (c :: p)). simpl length in Hle. lia.
Qed.

(** X15. [handleGeneratePassphrase] never lets an error through. Without
    a word list (undefined or empty) it shows its error message and an
    empty hint and reads no entropy. With a list of [2^k] words, for a
    count field that reads back as [n] with [k * n] below 2^53, it shows
    exactly the passphrase that [generatePassphrase] returns for the raw
    field values, while the hint prints the entropy [k * n] of [n] words,
    [n] being the count field defaulted to 6 but not clamped: the hint
    matches the number of words shown exactly when [3 <= n <= 12]. *)
Theorem handleGeneratePassphrase_result (fuel : nat)
  (BIP39_WORDS : option (list jsstring)) (d : page) (src : nat -> Z) (pos : nat) :
  let n := or_default (parseInt (JSstring (wordCount d))) 6 in
  (BIP39_WORDS = None \/ BIP39_WORDS = Some [] ->
   handleGeneratePassphrase fuel BIP39_WORDS d src pos
   = Returned (set_phraseHint (Text [])
                 (set_phraseResult (Message "Ошибка генерации passphrase") d), pos)) /\
  (forall e, handleGeneratePassphrase fuel BIP39_WORDS d src pos <> Thrown e) /\
  (forall (ws : list jsstring) (k : nat),
   BIP39_WORDS = Some ws -> length ws = (2 ^ k)%nat ->
   reads_back (JSstring (wordCount d)) ->
   Z.abs (Z.of_nat k * n) < 2 ^ 53 ->
   forall d' pos',
     handleGeneratePassphrase fuel BIP39_WORDS d src pos = Returned (d', pos') ->
     exists s,
       generatePassphrase fuel (Some ws) (JSstring (wordCount d)) (separator d) src pos
       = Returned (s, pos') /\
       d' = set_phraseHint (EntropyHint (Finite (IZR (Z.of_nat k * n))))
              (set_phraseResult (Text s) d) /\
       (word_count (JSstring (wordCount d)) = n <-> 3 <= n <= 12)).
Proof.
  intros n. unfold handleGeneratePassphrase, try_catch, bind.
  rewrite generatePassphrase_again. fold n.
  destruct (generatePassphrase fuel BIP39_WORDS (JSstring (wordCount d))
              (separator d) src pos) as [[s pos1]|e|] eqn:Hgen.
  - split_and!.
    + intros Hnone. by rewrite generatePassphrase_not_loaded in Hgen.
    + done.
    + intros ws k -> Hsize _ _ d' pos' [= <- <-]. exists s.
      split_and!; [done | | ].
      * unfold calculateEntropy. by rewrite Hsize, times_log2_pow2.
      * unfold word_count. fold n. lia.
  - apply generatePassphrase_Thrown in Hgen as [Hnone _].
    split_and!; [done | done |].
    intros ws k -> Hsize. destruct Hnone as [|[= ->]]; [done|].
    pose proof (Nat.pow_nonzero 2 k ltac:(lia)). simpl in Hsize. lia.
  - split_and!; [|done|done].
    intros Hnone. by rewrite generatePassphrase_not_loaded in Hgen.
Qed.

Lemma handleGeneratePassphrase_result_witness :
  reads_back (JSstring (wordCount example_passphrase_page)) /\
  exists s,
    generatePassphrase 1 (Some [lit "able"; lit "baker"]) (JSstring (lit "100")) []
      (fun n => Z.of_nat n) 0%nat = Returned (s, 12%nat) /\
    handleGeneratePassphrase 1 (Some [lit "able"; lit "baker"]) example_passphrase_page
      (fun n => Z.of_nat n) 0%nat
    = Returned (set_phraseHint (EntropyHint (Finite (IZR (Z.of_nat 1 * 100))))
                  (set_phraseResult (Text s) example_passphrase_page), 12%nat).
Proof.
  assert (reads_back (JSstring (wordCount example_passphrase_page))) as Hreads
    by (vm_compute; reflexivity).
  split; [exact Hreads|].
  destruct (handleGeneratePassphrase 1 (Some [lit "able"; lit "baker"])
              example_passphrase_page (fun n => Z.of_nat n) 0%nat)
    as [[d' pos']| |] eqn:Hrun;
    [|exfalso; vm_compute in Hrun; discriminate..].
  assert (pos' = 12%nat) as -> by (vm_compute in Hrun; congruence).
  destruct (proj2 (proj2 (handleGeneratePassphrase_result 1
              (Some [lit "able"; lit "baker"]) example_passphrase_page
              (fun n => Z.of_nat n) 0%nat))
              [lit "able"; lit "baker"] 1%nat eq_refl eq_refl Hreads
              ltac:(vm_compute; reflexivity) d' 12%nat Hrun)
    as (s & Hgen & -> & _).
  exists s. split; [exact Hgen | reflexivity].
Defined.

Lemma handleCheckPassword_result_witness :
  checkInput example_check_page <> [] /\
  handleCheckPassword example_check_page (fun _ => 0) 0%nat
  = Returned (set_checkStrength 92
                (set_checkResult (Message Label.very_strong) example_check_page), 0%nat).
Proof.
  assert (checkInput example_check_page <> []) as Hinput by discriminate.
  split; [exact Hinput|].
  destruct (handleCheckPassword_result example_check_page (fun _ => 0) 0%nat)
    as (d' & -> & _ & Hd' & _).
  rewrite (Hd' Hinput). vm_compute. reflexivity.
Defined.

(** * Passwords without repeats *)

Lemma distinct_characters_NoDup (p : jsstring) :
  Forall (fun u => is_high_surrogate u = false) p ->
  NoDup p ->
  distinct_characters p = Z.of_nat (length p).
Proof.
  intros Hp Hnodup. rewrite <- uniqueChars_distinct, iterate_units by done.
  rewrite size_list_to_set, length_fmap; [done|].
  apply NoDup_fmap_2; [by intros u1 u2 [= ->] | done].
Qed.

(** X9. A password in which no code unit repeats (and none is a high
    surrogate) pays no penalty: its score is exactly
    [min(4 * length, 40) + 15 * classes], and it reaches 100 exactly when
    it has at least 10 code units and all four classes. *)
Theorem calculateStrength_no_repeats (p : jsstring) :
  Forall (fun u => is_high_surrogate u = false) p ->
  NoDup p ->
  p <> [] ->
  calculateStrength p = Z.min (Z.of_nat (length p) * 4) 40 + classes p * 15 /\
  (calculateStrength p = 100 <-> (10 <= length p)%nat /\ classes p = 4).
Proof.
  intros Hp Hnodup Hne.
  rewrite calculateStrength_nonempty, distinct_characters_NoDup by done.
  pose proof (classes_bounds p) as Hclasses.
  assert (1 <= classes p) as Hone.
  { destruct p as [|c p]; [done|]. unfold classes, test. simpl existsb.
    unfold not_alnum at 1.
    assert (forall b : bool, 0 <= Z.b2z b <= 1) as Hb by (intros []; simpl; lia).
    pose proof (Hb (existsb in_a_z p)). pose proof (Hb (existsb in_A_Z p)).
    pose proof (Hb (existsb in_0_9 p)). pose proof (Hb (existsb not_alnum p)).
    destruct (in_a_z c), (in_A_Z c), (in_0_9 c); simpl; lia. }
  split; lia.
Qed.

Lemma calculateStrength_no_repeats_witness :
  Forall (fun u => is_high_surrogate u = false) (lit "aB3!xyzwQ7") /\
  NoDup (lit "aB3!xyzwQ7") /\
  calculateStrength (lit "aB3!xyzwQ7") = 100.
Proof.
  assert (Forall (fun u => is_high_surrogate u = false) (lit "aB3!xyzwQ7")) as Hp
    by (apply (bool_decide_unpack _); vm_compute; exact I).
  assert (NoDup (lit "aB3!xyzwQ7")) as Hnodup
    by (apply (bool_decide_unpack _); vm_compute; exact I).
  split; [exact Hp|]. split; [exact Hnodup|].
  apply (proj2 (calculateStrength_no_repeats (lit "aB3!xyzwQ7") Hp Hnodup
                  ltac:(discriminate))).
  split; [vm_compute; lia | reflexivity].
Defined.

(** * A character outside the Basic Multilingual Plane *)

Lemma remove_dups_units (p : jsstring) :
  remove_dups ((fun u => [u]) <$> p) = (fun u => [u]) <$> remove_dups p.
Proof.
  induction p as [|u p IH]; [done|].
  rewrite fmap_cons. simpl remove_dups. rewrite IH.
  destruct (decide_rel elem_of [u] ((fun u => [u]) <$> p)) as [Hin|Hout],
    (decide_rel elem_of u p) as [Hin'|Hout']; try done.
  - apply list_elem_of_fmap in Hin as (u' & [= <-] & Hu'). done.
  - destruct Hout. by apply (list_elem_of_fmap_2 (fun u : Z => [u])).
Qed.

(** Without a high surrogate the elements of the set are the code units. *)
Lemma distinct_characters_units (p : jsstring) :
  Forall (fun u => is_high_surrogate u = false) p ->
  distinct_characters p = distinct_units p.
Proof.
  intros Hp. unfold distinct_characters, distinct_units.
  by rewrite iterate_units, remove_dups_units, length_fmap.
Qed.

(** C7. [calculateStrength] is the scoring rule of the specification,
    min(100, max(0, min(4 * length, 40) + 15 * classes present
    - 2 * (length - distinct characters))) and 0 for the empty string, on
    every string without a high surrogate, and its score is always between
    0 and 100. On the string of the single character U+1F600 (the code
    units D83D DE00), in which nothing repeats, the rule gives 23 and the
    code 21: [password.length] counts two code units, [new Set(password)]
    holds one element, and the difference is charged as a repetition. *)
Theorem calculateStrength_surrogate_pair_penalty :
  calculateStrength [55357; 56832] = 21 /\
  strength_reference [55357; 56832] = 23 /\
  NoDup [55357; 56832] /\
  iterate [55357; 56832] = [[55357; 56832]] /\
  (forall p : jsstring,
     Forall (fun u => is_high_surrogate u = false) p ->
     calculateStrength p = strength_reference p) /\
  (forall p : jsstring, 0 <= calculateStrength p <= 100).
Proof.
  split_and!.
  - vm_compute. reflexivity.
  - vm_compute. reflexivity.
  - apply (bool_decide_unpack _). vm_compute. exact I.
  - reflexivity.
  - intros p Hp. destruct p as [|c p]; [done|].
    unfold calculateStrength, strength_reference.
    rewrite varietyCount_sum, uniqueChars_distinct, !present_test.
    rewrite distinct_characters_units by done.
    change (length (c :: p) =? 0)%nat with false. cbv iota. lia.
  - apply calculateStrength_bounds.
Qed.

Lemma calculateStrength_surrogate_pair_penalty_witness :
  Forall (fun u => is_high_surrogate u = false) (lit "aB3!xy") /\
  calculateStrength (lit "aB3!xy") = strength_reference (lit "aB3!xy").
Proof.
  assert (Forall (fun u => is_high_surrogate u = false) (lit "aB3!xy")) as Hp
    by (apply (bool_decide_unpack _); vm_compute; exact I).
  split; [exact Hp|].
  apply (proj1 (proj2 (proj2 (proj2 (proj2 calculateStrength_surrogate_pair_penalty))))
           (lit "aB3!xy") Hp).
Defined.
